(** * mmap_overhead_estimator: a shallow embedding of
      [src/mmap_overhead_estimator.c] and the properties of its
      size parser, overhead arithmetic, touch loop and exit paths.

    Conventions of the embedding.
    - The target is LP64 Linux (the program uses [MAP_HUGE_2MB] and
      [MAP_HUGE_1GB]): [size_t], [unsigned long] and [unsigned long long]
      are 64-bit and are values of [Z] with the wrap-around written out.
    - A C string is the Rocq [string] of its characters before the
      terminating NUL; a [char *] into it is an index, and reading the
      index equal to the length reads the NUL ([get] returns [None]).
    - [errno] is threaded explicitly where the code reads it.
    - Output and system calls are recorded as a trace of events, each
      [Print] carrying the stream it was written to. *)

From Stdlib Require Import ZArith List String Ascii Bool Lia.
Import ListNotations.

Local Open Scope string_scope.
Local Open Scope Z_scope.

(* ================================================================== *)
(** ** Machine integers *)

Module Mach.

Definition SIZE_WIDTH : Z := 64.
Definition SIZE_MOD : Z := 2 ^ SIZE_WIDTH.
Definition SIZE_MAX : Z := SIZE_MOD - 1.
Definition ULLONG_MAX : Z := 2 ^ 64 - 1.
Definition LONG_MAX : Z := 2 ^ 63 - 1.
Definition LONG_MIN : Z := - 2 ^ 63.

(** Conversion to [size_t] / arithmetic in [size_t]. *)
Definition wrap (x : Z) : Z := x mod SIZE_MOD.

(** errno values of Linux. *)
Definition ENOMEM : Z := 12.
Definition EINVAL : Z := 22.
Definition ERANGE : Z := 34.

End Mach.
Import Mach.

(* ================================================================== *)
(** ** The constants of the source *)

Definition PAGE_SIZE_4K : Z := 4 * 1024.
Definition PAGE_SIZE_2M : Z := 2 * 1024 * 1024.
Definition PAGE_SIZE_1G : Z := 1 * 1024 * 1024 * 1024.
Definition PTE_SIZE : Z := 8.

Inductive PageSizeMode := MODE_4K | MODE_THP | MODE_2M | MODE_1G.

Inductive ThpStatus := THP_UNKNOWN | THP_ALWAYS | THP_MADVISE | THP_NEVER.

(* ================================================================== *)
(** ** Output and system-call events *)

Inductive stream := Stdout | Stderr.

(** The texts the program writes, one constructor per [printf],
    [fprintf] or [perror] site with the integer and string arguments of
    its format; a run of consecutive calls that writes one block (the
    usage text, a hint, a note) is one message. *)
Inductive message :=
  (* parse_size *)
  | MsgInvalidSizeValue (size_str : string)
  | MsgSizeTooLarge (size_str : string)
  | MsgInvalidSuffix (suffix : ascii) (size_str : string)
  | MsgTrailingChars (size_str : string)
  | MsgOverflow (size_str : string)
  | MsgZeroSize
  (* main: arguments *)
  | MsgUsage (argv0 : string)
  | MsgMode4K
  | MsgModeTHP
  | MsgMode2M
  | MsgMode1G
  | MsgInvalidMode (arg : string)
  | MsgNotMultiple (map_size huge_page_size : Z) (arg : string)
  (* main: probes *)
  | MsgWarnThpNever
  | MsgWarnThpUnknown
  | MsgNoInitialVmPTE
  | MsgInitialVmPTE (kb : Z)
  | MsgMappingSize (map_size : Z)
  (* main: mapping *)
  | MsgMappingMemory
  | MsgMmapFailed (err : Z)
  | MsgHintNrHugepages (huge_page_kb : Z)
  | MsgHintCheckMultiple (map_size huge_page_size flags : Z)
  | MsgMadviseNoHugeFailed (err : Z)
  | MsgMadviseHugeFailed (err : Z)
  | MsgTouching (step_kb : Z)
  | MsgTouched (touched_count : Z)
  (* main: report *)
  | MsgNoFinalVmPTE
  | MsgFinalVmPTE (kb : Z)
  | MsgVmPTEChange (diff : Z)
  | MsgVmPTENote
  | MsgTheoryHeader
  | MsgTheory4K (entries overhead : Z)
  | MsgTheory2M (entries overhead : Z)
  | MsgTheory2MNA
  | MsgTheory1G (entries overhead : Z)
  | MsgTheory1GNA
  | MsgTheoryNote
  | MsgPidPrompt (pid : Z)
  (* main: cleanup *)
  | MsgUnmapping
  | MsgMunmapFailed (err : Z).

Inductive mmap_result := MapOk (addr : Z) | MapFailed (err : Z).

Inductive event :=
  | Print (fd : stream) (m : message)
  | ReadThpEnabled
  | ReadProcStatus
  | Mmap (len prot flags : Z) (res : mmap_result)
  | Madvise (addr len advice : Z)
  | Touch (addr offset byte : Z)
  | Getchar
  | Munmap (addr len : Z).

(* ================================================================== *)
(** ** C library: character classes and [strtoull] *)

Module Libc.

Definition char_code (c : ascii) : Z := Z.of_nat (nat_of_ascii c).

(** [isspace] in the "C" locale (the program never calls [setlocale]). *)
Definition isspace (c : ascii) : bool :=
  let n := char_code c in (n =? 32) || ((9 <=? n) && (n <=? 13)).

Definition isdigit (c : ascii) : bool :=
  let n := char_code c in (48 <=? n) && (n <=? 57).

Definition digit_val (c : ascii) : Z := char_code c - 48.

(** Number of leading white-space characters. *)
Fixpoint span_space (s : string) : nat :=
  match s with
  | String c r => if isspace c then S (span_space r) else O
  | EmptyString => O
  end.

(** Number of leading digits, and the value they add to [acc]. *)
Fixpoint scan_digits (s : string) (acc : Z) : nat * Z :=
  match s with
  | String c r =>
      if isdigit c then
        let (n, v) := scan_digits r (acc * 10 + digit_val c) in (S n, v)
      else (O, acc)
  | EmptyString => (O, acc)
  end.

Fixpoint drop (n : nat) (s : string) : string :=
  match n, s with
  | S k, String _ r => drop k r
  | _, _ => s
  end.

(** The optional sign: whether it is a minus, and its length. *)
Definition read_sign (s : string) : bool * nat :=
  match s with
  | String "-" _ => (true, 1%nat)
  | String "+" _ => (false, 1%nat)
  | _ => (false, 0%nat)
  end.

Record strtoull_result := {
  st_val : Z;        (* the returned unsigned long long *)
  st_end : nat;      (* endptr, as an index into nptr *)
  st_errno : Z       (* errno after the call *)
}.

(** [strtoull(nptr, &endptr, 10)] as ISO C 7.22.1.4 and glibc define it:
    white space is skipped, one optional sign is read, then the longest
    run of decimal digits.  Without a digit nothing is converted
    ([endptr == nptr], value 0, errno untouched).  A value above
    [ULLONG_MAX] gives [ULLONG_MAX] and [errno = ERANGE]; otherwise a
    minus sign negates the value in the unsigned type. *)
Definition strtoull (errno : Z) (nptr : string) : strtoull_result :=
  let ws := span_space nptr in
  let after_ws := drop ws nptr in
  let '(neg, sign_len) := read_sign after_ws in
  let '(nd, v) := scan_digits (drop sign_len after_ws) 0 in
  match nd with
  | O => {| st_val := 0; st_end := 0; st_errno := errno |}
  | S _ =>
      if ULLONG_MAX <? v then
        {| st_val := ULLONG_MAX; st_end := (ws + sign_len + nd)%nat;
           st_errno := ERANGE |}
      else
        {| st_val := if neg then (- v) mod 2 ^ 64 else v;
           st_end := (ws + sign_len + nd)%nat;
           st_errno := errno |}
  end.

End Libc.
Import Libc.

(* ================================================================== *)
(** ** A trace monad with early [return] from [main] *)

Inductive outcome (A : Type) :=
  | Continue (a : A)      (* control reaches the next statement *)
  | Return (code : Z)     (* [return code;] *)
  | OutOfFuel.            (* the loop bound of the model was reached *)
Arguments Continue {A} a.
Arguments Return {A} code.
Arguments OutOfFuel {A}.

Definition prog (A : Type) : Type := list event * outcome A.

Definition ret {A} (a : A) : prog A := ([], Continue a).

Definition bind {A B} (m : prog A) (f : A -> prog B) : prog B :=
  match m with
  | (t, Continue a) => let r := f a in ((t ++ fst r)%list, snd r)
  | (t, Return c) => (t, Return c)
  | (t, OutOfFuel) => (t, OutOfFuel)
  end.

Definition emit (e : event) : prog unit := ([e], Continue tt).
Definition print (fd : stream) (m : message) : prog unit := emit (Print fd m).
Definition return_ {A} (code : Z) : prog A := ([], Return code).

Notation "x <- m ;; k" := (bind m (fun x => k))
  (at level 61, m at next level, right associativity).
Notation "m ;; k" := (bind m (fun _ => k))
  (at level 61, right associativity).

(* ================================================================== *)
(** ** [parse_size] (source lines 31-81) *)

(** The [switch (suffix)] of lines 50-57: [None] is the [default] arm. *)
Definition suffix_multiplier (suffix : ascii) : option Z :=
  match suffix with
  | "G"%char | "g"%char => Some (1024 * 1024 * 1024)
  | "M"%char | "m"%char => Some (1024 * 1024)
  | "K"%char | "k"%char => Some 1024
  | _ => None
  end.

(** Lines 65-80: the overflow check, the multiplication and the zero check. *)
Definition apply_multiplier (size_str : string) (val_ull multiplier : Z)
  : list event * Z :=
  if ULLONG_MAX / multiplier <? val_ull then
    ([Print Stderr (MsgOverflow size_str)], 0)
  else
    let final_size := wrap (wrap val_ull * multiplier) in
    if (final_size =? 0) && (val_ull =? 0) then
      ([Print Stderr MsgZeroSize], 0)
    else ([], final_size).

(** [parse_size errno size_str] is the diagnostics written and the value
    returned, [errno] being the value of [errno] on entry. *)
Definition parse_size (errno : Z) (size_str : string) : list event * Z :=
  let r := strtoull errno size_str in
  let val_ull := st_val r in
  let endptr := st_end r in
  let errno := st_errno r in
  if (endptr =? 0)%nat || ((val_ull =? 0) && negb (errno =? 0)) then
    ([Print Stderr (MsgInvalidSizeValue size_str)], 0)
  else if (val_ull =? ULLONG_MAX) && (errno =? ERANGE) then
    ([Print Stderr (MsgSizeTooLarge size_str)], 0)
  else
    match get endptr size_str with
    | Some suffix =>
        match suffix_multiplier suffix with
        | Some multiplier =>
            match get (S endptr) size_str with
            | Some _ => ([Print Stderr (MsgTrailingChars size_str)], 0)
            | None => apply_multiplier size_str val_ull multiplier
            end
        | None => ([Print Stderr (MsgInvalidSuffix suffix size_str)], 0)
        end
    | None => apply_multiplier size_str val_ull 1
    end.

(* ================================================================== *)
(** ** [calculate_overhead] (source lines 113-118) *)

Definition calculate_overhead (total_size page_size : Z) : Z :=
  if page_size =? 0 then 0
  else
    let num_pages := wrap (wrap (total_size + page_size) - 1) / page_size in
    wrap (num_pages * PTE_SIZE).

(* ================================================================== *)
(** ** The kernel state probes (source lines 84-110 and 121-135) *)

(** The world a run observes: the contents of the two introspection
    files as [fgets] delivers them ([None] when [fopen] fails) and the
    answers of the system calls. *)
Record world := {
  w_thp_enabled : option (list string);
  w_status_before : option (list string);   (* first get_vmpte_kb() *)
  w_status_after : option (list string);    (* second get_vmpte_kb() *)
  w_pid : Z;
  w_mmap : Z -> Z -> Z -> mmap_result;      (* len, prot, flags *)
  w_madvise : option Z;    (* None: 0;  Some e: -1 with errno = e *)
  w_munmap : option Z      (* None: 0;  Some e: -1 with errno = e *)
}.

(** [strstr(hay, needle) != NULL]. *)
Fixpoint strstr (hay needle : string) : bool :=
  prefix needle hay ||
  match hay with
  | String _ r => strstr r needle
  | EmptyString => false
  end.

(** [sscanf(s, "%ld", &v) == 1] and the value stored; out-of-range
    input is clamped as glibc's [strtol] does. *)
Definition sscanf_ld (s : string) : option Z :=
  let after_ws := drop (span_space s) s in
  let '(neg, sign_len) := read_sign after_ws in
  let '(nd, v) := scan_digits (drop sign_len after_ws) 0 in
  match nd with
  | O => None
  | S _ => Some (Z.max LONG_MIN (Z.min LONG_MAX (if neg then - v else v)))
  end.

Fixpoint vmpte_scan (lines : list string) : Z :=
  match lines with
  | line :: rest =>
      if prefix "VmPTE:" line then
        match sscanf_ld (drop 6 line) with
        | Some vmpte => vmpte
        | None => -1
        end
      else vmpte_scan rest
  | [] => -1
  end.

Definition get_vmpte_kb (file : option (list string)) : Z :=
  match file with
  | None => -1
  | Some lines => vmpte_scan lines
  end.

Fixpoint thp_scan (lines : list string) : ThpStatus :=
  match lines with
  | line :: rest =>
      if strstr line "[always]" then THP_ALWAYS
      else if strstr line "[madvise]" then THP_MADVISE
      else if strstr line "[never]" then THP_NEVER
      else thp_scan rest
  | [] => THP_UNKNOWN
  end.

Definition check_thp_status (file : option (list string)) : ThpStatus :=
  match file with
  | None => THP_UNKNOWN
  | Some lines => thp_scan lines
  end.

(* ================================================================== *)
(** ** [main] (source lines 139-313) *)

(** Linux values of the <sys/mman.h> constants the program uses. *)
Definition PROT_READ : Z := 1.
Definition PROT_WRITE : Z := 2.
Definition MAP_PRIVATE : Z := 2.
Definition MAP_ANONYMOUS : Z := 32.
Definition MAP_HUGETLB : Z := 262144.
Definition MAP_HUGE_SHIFT : Z := 26.
Definition MAP_HUGE_2MB : Z := Z.shiftl 21 MAP_HUGE_SHIFT.
Definition MAP_HUGE_1GB : Z := Z.shiftl 30 MAP_HUGE_SHIFT.
Definition MADV_HUGEPAGE : Z := 14.
Definition MADV_NOHUGEPAGE : Z := 15.

(** ISO C 7.5: errno is zero at program startup, and [main] calls
    nothing before [parse_size]. *)
Definition errno_at_startup : Z := 0.

(** The four locals the mode keyword decides (lines 158-161). *)
Record page_policy := {
  mode : PageSizeMode;
  mmap_flags : Z;
  huge_page_size : Z;
  touch_step_size : Z
}.

Definition is_hugetlb (m : PageSizeMode) : bool :=
  match m with MODE_2M | MODE_1G => true | _ => false end.

(** Lines 158-184: the [strcmp] chain on [argv[2]]. *)
Definition select_mode (arg : string) : prog page_policy :=
  let flags0 := Z.lor MAP_PRIVATE MAP_ANONYMOUS in
  if (arg =? "4k")%string then
    print Stdout MsgMode4K ;;
    ret {| mode := MODE_4K; mmap_flags := flags0;
           huge_page_size := 0; touch_step_size := PAGE_SIZE_4K |}
  else if (arg =? "thp")%string then
    print Stdout MsgModeTHP ;;
    ret {| mode := MODE_THP; mmap_flags := flags0;
           huge_page_size := 0; touch_step_size := PAGE_SIZE_4K |}
  else if (arg =? "2m")%string then
    print Stdout MsgMode2M ;;
    ret {| mode := MODE_2M;
           mmap_flags := Z.lor flags0 (Z.lor MAP_HUGETLB MAP_HUGE_2MB);
           huge_page_size := PAGE_SIZE_2M; touch_step_size := PAGE_SIZE_2M |}
  else if (arg =? "1g")%string then
    print Stdout MsgMode1G ;;
    ret {| mode := MODE_1G;
           mmap_flags := Z.lor flags0 (Z.lor MAP_HUGETLB MAP_HUGE_1GB);
           huge_page_size := PAGE_SIZE_1G; touch_step_size := PAGE_SIZE_1G |}
  else
    print Stderr (MsgInvalidMode arg) ;; return_ 1.

(** Lines 250-253: [for (i = 0; i < map_size; i += touch_step_size)],
    entered with the current [i] and [touched_count]; both are [size_t]
    and wrap.  [fuel] bounds the number of loop tests. *)
Fixpoint touch_loop (fuel : nat) (addr map_size step i touched_count : Z)
  : prog Z :=
  match fuel with
  | O => ([], OutOfFuel)
  | S fuel' =>
      if i <? map_size then
        emit (Touch addr i (i mod 256)) ;;
        touch_loop fuel' addr map_size step
                   (wrap (i + step)) (wrap (touched_count + 1))
      else ret touched_count
  end.

Definition when (b : bool) (m : prog unit) : prog unit :=
  if b then m else ret tt.

Definition mode_eqb (a b : PageSizeMode) : bool :=
  match a, b with
  | MODE_4K, MODE_4K | MODE_THP, MODE_THP
  | MODE_2M, MODE_2M | MODE_1G, MODE_1G => true
  | _, _ => false
  end.

Definition thp_eqb (a b : ThpStatus) : bool :=
  match a, b with
  | THP_UNKNOWN, THP_UNKNOWN | THP_ALWAYS, THP_ALWAYS
  | THP_MADVISE, THP_MADVISE | THP_NEVER, THP_NEVER => true
  | _, _ => false
  end.

(** The entry count printed beside each overhead (lines 276, 282, 291). *)
Definition entries (map_size page_size : Z) : Z :=
  wrap (wrap (map_size + page_size) - 1) / page_size.

(** Lines 235-313: everything after a successful [mmap]. *)
Definition after_mmap (fuel : nat) (w : world) (pol : page_policy)
  (thp_status : ThpStatus) (vmpte_before map_size addr : Z)
  : prog Empty_set :=
  (if mode_eqb (mode pol) MODE_4K then
     emit (Madvise addr map_size MADV_NOHUGEPAGE) ;;
     match w_madvise w with
     | Some err => print Stderr (MsgMadviseNoHugeFailed err)
     | None => ret tt
     end
   else if mode_eqb (mode pol) MODE_THP && thp_eqb thp_status THP_MADVISE then
     emit (Madvise addr map_size MADV_HUGEPAGE) ;;
     match w_madvise w with
     | Some err => print Stderr (MsgMadviseHugeFailed err)
     | None => ret tt
     end
   else ret tt) ;;
  print Stdout (MsgTouching (touch_step_size pol / 1024)) ;;
  touched_count <- touch_loop fuel addr map_size (touch_step_size pol) 0 0 ;;
  print Stdout (MsgTouched touched_count) ;;
  emit ReadProcStatus ;;
  let vmpte_after := get_vmpte_kb (w_status_after w) in
  (if vmpte_after <? 0 then
     print Stderr MsgNoFinalVmPTE
   else
     print Stdout (MsgFinalVmPTE vmpte_after) ;;
     print Stdout (MsgVmPTEChange (vmpte_after - vmpte_before)) ;;
     print Stdout MsgVmPTENote) ;;
  print Stdout MsgTheoryHeader ;;
  print Stdout (MsgTheory4K (entries map_size PAGE_SIZE_4K)
                            (calculate_overhead map_size PAGE_SIZE_4K)) ;;
  (if PAGE_SIZE_2M <=? map_size then
     print Stdout (MsgTheory2M (entries map_size PAGE_SIZE_2M)
                               (calculate_overhead map_size PAGE_SIZE_2M))
   else print Stdout MsgTheory2MNA) ;;
  (if PAGE_SIZE_1G <=? map_size then
     print Stdout (MsgTheory1G (entries map_size PAGE_SIZE_1G)
                               (calculate_overhead map_size PAGE_SIZE_1G))
   else print Stdout MsgTheory1GNA) ;;
  print Stdout MsgTheoryNote ;;
  print Stdout (MsgPidPrompt (w_pid w)) ;;
  emit Getchar ;;
  print Stdout MsgUnmapping ;;
  emit (Munmap addr map_size) ;;
  match w_munmap w with
  | Some err => print Stderr (MsgMunmapFailed err)
  | None => ret tt
  end ;;
  return_ 0.

(** Lines 217-233: the [addr == MAP_FAILED] branch. *)
Definition mmap_failed (pol : page_policy) (map_size err : Z)
  : prog Empty_set :=
  print Stderr (MsgMmapFailed err) ;;
  when (is_hugetlb (mode pol))
    (if err =? ENOMEM then
       print Stderr (MsgHintNrHugepages (huge_page_size pol / 1024))
     else if err =? EINVAL then
       print Stderr (MsgHintCheckMultiple map_size (huge_page_size pol)
                                          (mmap_flags pol))
     else ret tt) ;;
  return_ 1.

Definition main (fuel : nat) (w : world) (argv : list string)
  : prog Empty_set :=
  let argc := Z.of_nat (List.length argv) in
  let arg (n : nat) := nth n argv "" in
  if negb (argc =? 3) then
    print Stderr (MsgUsage (arg 0%nat)) ;; return_ 1
  else
    let '(diag, map_size) := parse_size errno_at_startup (arg 1%nat) in
    (diag, Continue tt) ;;
    if map_size =? 0 then return_ 1
    else
      pol <- select_mode (arg 2%nat) ;;
      if is_hugetlb (mode pol)
         && negb (map_size mod huge_page_size pol =? 0) then
        print Stderr (MsgNotMultiple map_size (huge_page_size pol) (arg 2%nat)) ;;
        return_ 1
      else
        emit ReadThpEnabled ;;
        let thp_status := check_thp_status (w_thp_enabled w) in
        when ((mode_eqb (mode pol) MODE_4K || mode_eqb (mode pol) MODE_THP)
              && thp_eqb thp_status THP_NEVER)
          (print Stdout MsgWarnThpNever) ;;
        when (mode_eqb (mode pol) MODE_THP && thp_eqb thp_status THP_UNKNOWN)
          (print Stdout MsgWarnThpUnknown) ;;
        emit ReadProcStatus ;;
        let vmpte_before := get_vmpte_kb (w_status_before w) in
        if vmpte_before <? 0 then
          print Stderr MsgNoInitialVmPTE ;; return_ 1
        else
          print Stdout (MsgInitialVmPTE vmpte_before) ;;
          print Stdout (MsgMappingSize map_size) ;;
          print Stdout MsgMappingMemory ;;
          let prot := Z.lor PROT_READ PROT_WRITE in
          let res := w_mmap w map_size prot (mmap_flags pol) in
          emit (Mmap map_size prot (mmap_flags pol) res) ;;
          match res with
          | MapFailed err => mmap_failed pol map_size err
          | MapOk addr =>
              after_mmap fuel w pol thp_status vmpte_before map_size addr
          end.

(* ================================================================== *)
(** ** Specification-side definitions *)

(** Ceiling of [a / b], by quotient and remainder. *)
Definition ceil_div (a b : Z) : Z :=
  if a mod b =? 0 then a / b else a / b + 1.

(** The value of a string of decimal digits, by position. *)
Fixpoint decimal_value (ds : string) : Z :=
  match ds with
  | String c r => digit_val c * 10 ^ Z.of_nat (length r) + decimal_value r
  | EmptyString => 0
  end.

Fixpoint all_digits (ds : string) : bool :=
  match ds with
  | String c r => isdigit c && all_digits r
  | EmptyString => true
  end.

(** K, M, G in either case stand for 1024^1, 1024^2, 1024^3. *)
Definition suffix_power (c : ascii) : option Z :=
  if ((c =? "K") || (c =? "k"))%char then Some 1
  else if ((c =? "M") || (c =? "m"))%char then Some 2
  else if ((c =? "G") || (c =? "g"))%char then Some 3
  else None.

(** The size-string grammar of the specification:
    at least one digit, an optional suffix letter, end of string. *)
Fixpoint skip_digits (s : string) : string :=
  match s with
  | String c r => if isdigit c then skip_digits r else s
  | EmptyString => EmptyString
  end.

Definition starts_with_digit (s : string) : bool :=
  match s with
  | String c _ => isdigit c
  | EmptyString => false
  end.

Definition is_suffix_letter (c : ascii) : bool :=
  match suffix_power c with Some _ => true | None => false end.

Definition size_grammar (s : string) : bool :=
  starts_with_digit s &&
  match skip_digits s with
  | EmptyString => true
  | String c EmptyString => is_suffix_letter c
  | String _ (String _ _) => false
  end.

(** The same grammar after optional white space and one optional sign. *)
Fixpoint skip_spaces (s : string) : string :=
  match s with
  | String c r => if isspace c then skip_spaces r else s
  | EmptyString => EmptyString
  end.

Definition strip_sign (s : string) : string :=
  match s with
  | String c r => if ((c =? "-") || (c =? "+"))%char then r else s
  | EmptyString => EmptyString
  end.

Definition lenient_size_grammar (s : string) : bool :=
  size_grammar (strip_sign (skip_spaces s)).




(** The page-policy table of the specification. *)
Definition mode_of_token (arg : string) : option PageSizeMode :=
  if (arg =? "4k")%string then Some MODE_4K
  else if (arg =? "thp")%string then Some MODE_THP
  else if (arg =? "2m")%string then Some MODE_2M
  else if (arg =? "1g")%string then Some MODE_1G
  else None.

Definition stride_of_mode (m : PageSizeMode) : Z :=
  match m with
  | MODE_4K | MODE_THP => 4096
  | MODE_2M => 2 * 2 ^ 20
  | MODE_1G => 2 ^ 30
  end.

Definition alignment_of_mode (m : PageSizeMode) : option Z :=
  match m with
  | MODE_4K | MODE_THP => None
  | MODE_2M => Some (2 * 2 ^ 20)
  | MODE_1G => Some (2 ^ 30)
  end.

Definition flags_of_mode (m : PageSizeMode) : Z :=
  match m with
  | MODE_4K | MODE_THP => MAP_PRIVATE + MAP_ANONYMOUS
  | MODE_2M => MAP_PRIVATE + MAP_ANONYMOUS + MAP_HUGETLB + MAP_HUGE_2MB
  | MODE_1G => MAP_PRIVATE + MAP_ANONYMOUS + MAP_HUGETLB + MAP_HUGE_1GB
  end.

(** The offsets [start], [start + step], ... of [n] touches. *)
Fixpoint touch_offsets (n : nat) (start step : Z) : list Z :=
  match n with
  | O => []
  | S n' => start :: touch_offsets n' (start + step) step
  end.

(** The kernel's side of [mmap]: the page size a mapping is made of (the
    huge page size whose logarithm the flags carry above [MAP_HUGE_SHIFT]
    under [MAP_HUGETLB], else the 4 KiB base page, of which every larger
    base page is a multiple), and the fact that a region it returns
    starts at a nonzero multiple of that size and ends inside the 64-bit
    address space. *)
Definition mmap_page_size (flags : Z) : Z :=
  if Z.land flags MAP_HUGETLB =? 0 then PAGE_SIZE_4K
  else 2 ^ Z.land (Z.shiftr flags MAP_HUGE_SHIFT) 63.

Definition in_address_space (page addr len : Z) : Prop :=
  0 < addr /\ addr mod page = 0 /\ addr + len <= SIZE_MOD.

Definition mmap_contract (w : world) : Prop :=
  forall len prot flags addr,
    w_mmap w len prot flags = MapOk addr ->
    in_address_space (mmap_page_size flags) addr len.

Definition mode_banner (m : PageSizeMode) : message :=
  match m with
  | MODE_4K => MsgMode4K
  | MODE_THP => MsgModeTHP
  | MODE_2M => MsgMode2M
  | MODE_1G => MsgMode1G
  end.

Definition policy_of_mode (m : PageSizeMode) : page_policy :=
  {| mode := m;
     mmap_flags := flags_of_mode m;
     huge_page_size :=
       match alignment_of_mode m with Some al => al | None => 0 end;
     touch_step_size := stride_of_mode m |}.

(** Events that neither create, use nor release the mapping, nor wait
    for the operator. *)
Definition is_quiet (e : event) : bool :=
  match e with
  | Print _ _ | ReadThpEnabled | ReadProcStatus => true
  | _ => false
  end.

Definition mmap_len_positive (e : event) : Prop :=
  match e with
  | Mmap len _ _ _ => 0 < len <= SIZE_MAX
  | _ => True
  end.

(** The life cycle of the mapping along a trace. *)
Inductive mapping_state :=
  | NotMapped
  | Mapped (addr len : Z)
  | Released
  | Violation.

Definition lifecycle_step (st : mapping_state) (e : event) : mapping_state :=
  match e, st with
  | (Print _ _ | ReadThpEnabled | ReadProcStatus | Getchar), _ => st
  | Mmap len _ _ (MapOk addr), NotMapped => Mapped addr len
  | Mmap _ _ _ (MapFailed _), NotMapped => NotMapped
  | Mmap _ _ _ _, _ => Violation
  | Madvise a l _, Mapped addr len =>
      if (a =? addr) && (l =? len) then st else Violation
  | Touch a off _, Mapped addr len =>
      if (a =? addr) && (0 <=? off) && (off <? len) then st else Violation
  | Munmap a l, Mapped addr len =>
      if (a =? addr) && (l =? len) then Released else Violation
  | (Madvise _ _ _ | Touch _ _ _ | Munmap _ _), _ => Violation
  end.

Definition lifecycle (tr : list event) : mapping_state :=
  fold_left lifecycle_step tr NotMapped.

Definition is_mmap (e : event) : bool :=
  match e with Mmap _ _ _ _ => true | _ => false end.

Definition is_munmap (e : event) : bool :=
  match e with Munmap _ _ => true | _ => false end.

Definition is_mmap_ok (e : event) : bool :=
  match e with Mmap _ _ _ (MapOk _) => true | _ => false end.

(** The fatal classes of the specification, in the order they are met. *)
Inductive fatal_class :=
  | WrongArgCount
  | UnparsableSize
  | InvalidMode
  | MisalignedSize
  | BaselineProbeFailure
  | MmapFailure.

Definition classify (w : world) (argv : list string) : option fatal_class :=
  if negb (List.length argv =? 3)%nat then Some WrongArgCount
  else
    let size := snd (parse_size errno_at_startup (nth 1 argv "")) in
    if size =? 0 then Some UnparsableSize
    else
      match mode_of_token (nth 2 argv "") with
      | None => Some InvalidMode
      | Some m =>
          if match alignment_of_mode m with
             | Some al => negb (size mod al =? 0)
             | None => false
             end
          then Some MisalignedSize
          else if get_vmpte_kb (w_status_before w) <? 0
          then Some BaselineProbeFailure
          else
            match w_mmap w size (PROT_READ + PROT_WRITE) (flags_of_mode m) with
            | MapFailed _ => Some MmapFailure
            | MapOk _ => None
            end
      end.

(** The classes of diagnostics. *)
Definition is_thp_advisory (m : message) : bool :=
  match m with
  | MsgWarnThpNever | MsgWarnThpUnknown => true
  | _ => false
  end.

Definition is_failure_warning (m : message) : bool :=
  match m with
  | MsgMadviseNoHugeFailed _ | MsgMadviseHugeFailed _
  | MsgNoFinalVmPTE | MsgMunmapFailed _ => true
  | _ => false
  end.

Definition is_fatal_diagnostic (m : message) : bool :=
  match m with
  | MsgInvalidSizeValue _ | MsgSizeTooLarge _ | MsgInvalidSuffix _ _
  | MsgTrailingChars _ | MsgOverflow _ | MsgZeroSize
  | MsgUsage _ | MsgInvalidMode _ | MsgNotMultiple _ _ _
  | MsgNoInitialVmPTE | MsgMmapFailed _
  | MsgHintNrHugepages _ | MsgHintCheckMultiple _ _ _ => true
  | _ => false
  end.

Definition is_parse_diagnostic (m : message) : bool :=
  match m with
  | MsgInvalidSizeValue _ | MsgSizeTooLarge _ | MsgInvalidSuffix _ _
  | MsgTrailingChars _ | MsgOverflow _ | MsgZeroSize => true
  | _ => false
  end.

Definition is_warning (m : message) : bool :=
  is_thp_advisory m || is_failure_warning m.

Definition stream_eqb (a b : stream) : bool :=
  match a, b with
  | Stdout, Stdout | Stderr, Stderr => true
  | _, _ => false
  end.

(** The stream each diagnostic is observed on. *)
Definition stream_policy (e : event) : bool :=
  match e with
  | Print fd m =>
      if is_failure_warning m || is_fatal_diagnostic m then stream_eqb fd Stderr
      else if is_thp_advisory m then stream_eqb fd Stdout
      else true
  | _ => true
  end.

Definition well_streamed (e : event) : bool :=
  stream_policy e && negb (is_mmap e).

(** A world for the examples: THP policy "never", a baseline of 44 kB,
    a final probe that fails, a kernel that maps up to 1 TiB at 1 GiB
    when that address suits the page size, and [madvise] and [munmap]
    that fail with [EINVAL]. *)
Definition sample_world : world :=
  {| w_thp_enabled := Some ["always madvise [never]"];
     w_status_before := Some ["Name:   estimator"; "VmPTE:        44 kB"];
     w_status_after := None;
     w_pid := 4242;
     w_mmap := fun len _ flags =>
       if (len <=? 2 ^ 40) && (2 ^ 30 mod mmap_page_size flags =? 0)
       then MapOk (2 ^ 30) else MapFailed ENOMEM;
     w_madvise := Some EINVAL;
     w_munmap := Some EINVAL |}.

(* ================================================================== *)
(** ** Definitions for the further properties *)

Fixpoint all_space (s : string) : bool :=
  match s with
  | String c r => isspace c && all_space r
  | EmptyString => true
  end.

Definition substring_of (tok line : string) : Prop :=
  exists a b, line = a ++ tok ++ b.

Definition no_vmpte_line (lines : list string) : bool :=
  forallb (fun line => negb (prefix "VmPTE:" line)) lines.

Definition thp_tokens : list string := ["[always]"; "[madvise]"; "[never]"].

Definition no_thp_token (line : string) : Prop :=
  forall tok, In tok thp_tokens -> ~ substring_of tok line.

Definition is_value_diagnostic (m : message) : bool :=
  match m with
  | MsgSizeTooLarge _ | MsgOverflow _ | MsgZeroSize => true
  | _ => false
  end.

(** [endptr] moved right by [k], unless nothing was converted. *)
Definition shift_end (k : nat) (r : strtoull_result) : strtoull_result :=
  {| st_val := st_val r;
     st_end := match st_end r with O => O | S _ => (k + st_end r)%nat end;
     st_errno := st_errno r |}.

(** The advisory lines by mode and THP policy. *)
Definition thp_warnings (m : PageSizeMode) (thp : ThpStatus) : list event :=
  match m, thp with
  | (MODE_4K | MODE_THP), THP_NEVER => [Print Stdout MsgWarnThpNever]
  | MODE_THP, THP_UNKNOWN => [Print Stdout MsgWarnThpUnknown]
  | _, _ => []
  end.

(** What a run has done when it reaches [mmap]. *)
Definition prologue (m : PageSizeMode) (thp : ThpStatus) (vb size : Z)
  : list event :=
  ([Print Stdout (mode_banner m); ReadThpEnabled]
   ++ thp_warnings m thp
   ++ [ReadProcStatus; Print Stdout (MsgInitialVmPTE vb);
       Print Stdout (MsgMappingSize size); Print Stdout MsgMappingMemory])%list.

(** The remediation hint after a failed [mmap]. *)
Definition mmap_hint (m : PageSizeMode) (size err : Z) : list event :=
  match alignment_of_mode m with
  | None => []
  | Some hps =>
      if err =? ENOMEM then [Print Stderr (MsgHintNrHugepages (hps / 1024))]
      else if err =? EINVAL then
        [Print Stderr (MsgHintCheckMultiple size hps (flags_of_mode m))]
      else []
  end.

(** The whole trace of a run that ends in a fatal class. *)
Definition fatal_trace (w : world) (argv : list string) (c : fatal_class)
  : list event :=
  let size := snd (parse_size errno_at_startup (nth 1 argv "")) in
  let arg := nth 2 argv "" in
  let thp := check_thp_status (w_thp_enabled w) in
  let vb := get_vmpte_kb (w_status_before w) in
  match c, mode_of_token arg with
  | WrongArgCount, _ => [Print Stderr (MsgUsage (nth 0 argv ""))]
  | UnparsableSize, _ => fst (parse_size errno_at_startup (nth 1 argv ""))
  | InvalidMode, _ => [Print Stderr (MsgInvalidMode arg)]
  | MisalignedSize, Some m =>
      [Print Stdout (mode_banner m);
       Print Stderr
         (MsgNotMultiple size
            match alignment_of_mode m with Some al => al | None => 0 end arg)]
  | BaselineProbeFailure, Some m =>
      ([Print Stdout (mode_banner m); ReadThpEnabled]
       ++ thp_warnings m thp
       ++ [ReadProcStatus; Print Stderr MsgNoInitialVmPTE])%list
  | MmapFailure, Some m =>
      (prologue m thp vb size
       ++ match w_mmap w size (PROT_READ + PROT_WRITE) (flags_of_mode m) with
          | MapFailed err =>
              Mmap size (PROT_READ + PROT_WRITE) (flags_of_mode m)
                   (MapFailed err)
              :: Print Stderr (MsgMmapFailed err) :: mmap_hint m size err
          | MapOk _ => []
          end)%list
  | _, None => []
  end.

Definition is_touch (e : event) : bool :=
  match e with Touch _ _ _ => true | _ => false end.

Definition is_touched_summary (e : event) : bool :=
  match e with Print _ (MsgTouched _) => true | _ => false end.







(* ================================================================== *)
(** * Properties *)

Section MachineArithmetic.

Lemma wrap_small (x : Z) : 0 <= x < SIZE_MOD -> wrap x = x.
Proof. intros H. unfold wrap. now apply Z.mod_small. Qed.

Lemma wrap_range (x : Z) : 0 <= wrap x < SIZE_MOD.
Proof. unfold wrap. apply Z.mod_pos_bound. reflexivity. Qed.

End MachineArithmetic.

(* ================================================================== *)
(** ** Arithmetic facts *)

Lemma ceil_div_bounds (a b : Z) :
  0 < b -> (ceil_div a b - 1) * b < a <= ceil_div a b * b.
Proof.
  intros Hb. unfold ceil_div.
  pose proof (Z.div_mod a b ltac:(lia)) as E.
  pose proof (Z.mod_pos_bound a b Hb) as R.
  destruct (a mod b =? 0) eqn:Hr.
  - apply Z.eqb_eq in Hr. nia.
  - apply Z.eqb_neq in Hr. nia.
Qed.

(** [ceil_div a b] is the least number of [b]-sized pieces covering [a]. *)
Lemma ceil_div_least (a b n : Z) :
  0 < b -> a <= n * b -> ceil_div a b <= n.
Proof.
  intros Hb Hn. pose proof (ceil_div_bounds a b Hb). nia.
Qed.

Lemma ceil_div_nonneg (a b : Z) : 0 < b -> 0 <= a -> 0 <= ceil_div a b.
Proof.
  intros Hb Ha. pose proof (ceil_div_bounds a b Hb). nia.
Qed.

Lemma ceil_div_pos (a b : Z) : 0 < b -> 0 < a -> 0 < ceil_div a b.
Proof.
  intros Hb Ha. pose proof (ceil_div_bounds a b Hb). nia.
Qed.

(** The idiom of the source, without wrap-around. *)
Lemma add_pred_div (a b : Z) :
  0 < b -> (a + b - 1) / b = ceil_div a b.
Proof.
  intros Hb. symmetry. apply Z.div_unique with (r := a + b - 1 - ceil_div a b * b).
  - left. pose proof (ceil_div_bounds a b Hb). lia.
  - lia.
Qed.

Lemma wrap_sub_1 (x : Z) : wrap (wrap x - 1) = wrap (x - 1).
Proof. unfold wrap. apply Zminus_mod_idemp_l. Qed.

(** [calculate_overhead] when neither the sum nor the product wraps. *)
Lemma calculate_overhead_exact (total_size page_size : Z) :
  0 <= total_size -> 0 < page_size ->
  total_size + page_size - 1 <= SIZE_MAX ->
  ceil_div total_size page_size * PTE_SIZE <= SIZE_MAX ->
  calculate_overhead total_size page_size
  = ceil_div total_size page_size * PTE_SIZE.
Proof.
  intros Ht Hp Hsum Hprod. unfold calculate_overhead.
  destruct (page_size =? 0) eqn:E; [apply Z.eqb_eq in E; lia|].
  cbv zeta. rewrite wrap_sub_1.
  replace (total_size + page_size - 1) with (total_size + page_size - 1) by lia.
  rewrite (wrap_small (total_size + page_size - 1)) by (unfold SIZE_MAX in *; lia).
  rewrite add_pred_div by assumption.
  apply wrap_small. pose proof (ceil_div_nonneg total_size page_size Hp Ht).
  unfold SIZE_MAX, PTE_SIZE in *. lia.
Qed.

(* ================================================================== *)
(** ** Characters and digit strings *)

Section Characters.

Lemma isdigit_not_space (c : ascii) : isdigit c = true -> isspace c = false.
Proof. unfold isdigit, isspace. cbv zeta. lia. Qed.

Lemma isdigit_no_sign (c : ascii) (r : string) :
  isdigit c = true -> read_sign (String c r) = (false, 0%nat).
Proof.
  destruct c as [[] [] [] [] [] [] [] []]; intros H;
    vm_compute in H; try discriminate H; reflexivity.
Qed.

Lemma digit_val_range (c : ascii) : isdigit c = true -> 0 <= digit_val c <= 9.
Proof. unfold isdigit, digit_val. cbv zeta. lia. Qed.

Lemma suffix_multiplier_power (c : ascii) :
  suffix_multiplier c = option_map (Z.pow 1024) (suffix_power c).
Proof. destruct c as [[] [] [] [] [] [] [] []]; reflexivity. Qed.

Lemma suffix_not_digit (c : ascii) (p : Z) :
  suffix_power c = Some p -> isdigit c = false.
Proof.
  destruct c as [[] [] [] [] [] [] [] []]; intros H;
    vm_compute in H; try discriminate H; reflexivity.
Qed.

Lemma suffix_power_range (c : ascii) (p : Z) :
  suffix_power c = Some p -> 1 <= p <= 3.
Proof.
  unfold suffix_power.
  repeat match goal with |- context [if ?b then _ else _] => destruct b end;
    intros H; inversion H; lia.
Qed.

Lemma read_sign_strip (s : string) :
  drop (snd (read_sign s)) s = strip_sign s.
Proof.
  destruct s as [|c r]; [reflexivity|].
  destruct c as [[] [] [] [] [] [] [] []]; reflexivity.
Qed.

Lemma span_space_skip (s : string) : drop (span_space s) s = skip_spaces s.
Proof.
  induction s as [|c r IH]; [reflexivity|].
  simpl. destruct (isspace c); [exact IH|reflexivity].
Qed.

Lemma scan_digits_skip (s : string) (acc : Z) :
  drop (fst (scan_digits s acc)) s = skip_digits s.
Proof.
  revert acc. induction s as [|c r IH]; intros acc; [reflexivity|].
  simpl. destruct (isdigit c); [|reflexivity].
  specialize (IH (acc * 10 + digit_val c)).
  destruct (scan_digits r (acc * 10 + digit_val c)). exact IH.
Qed.

Lemma scan_digits_start (s : string) (acc : Z) :
  starts_with_digit s = negb (fst (scan_digits s acc) =? 0)%nat.
Proof.
  destruct s as [|c r]; [reflexivity|].
  simpl. destruct (isdigit c); [|reflexivity].
  destruct (scan_digits r (acc * 10 + digit_val c)). reflexivity.
Qed.

Lemma scan_digits_nonneg (s : string) (acc : Z) :
  0 <= acc -> 0 <= snd (scan_digits s acc).
Proof.
  revert acc. induction s as [|c r IH]; intros acc Ha; [exact Ha|].
  simpl. destruct (isdigit c) eqn:D; [|exact Ha].
  pose proof (digit_val_range c D).
  specialize (IH (acc * 10 + digit_val c) ltac:(lia)).
  destruct (scan_digits r (acc * 10 + digit_val c)). exact IH.
Qed.

Lemma decimal_value_nonneg (ds : string) :
  all_digits ds = true -> 0 <= decimal_value ds.
Proof.
  induction ds as [|c r IH]; simpl; [lia|].
  intros H. apply andb_prop in H. destruct H as [D R].
  pose proof (digit_val_range c D). specialize (IH R).
  assert (0 < 10 ^ Z.of_nat (length r)) by (apply Z.pow_pos_nonneg; lia).
  nia.
Qed.

(** Horner accumulation over a run of digits is the positional value. *)
Lemma scan_digits_value (ds rest : string) (acc : Z) :
  all_digits ds = true -> starts_with_digit rest = false ->
  scan_digits (ds ++ rest) acc
  = (length ds, acc * 10 ^ Z.of_nat (length ds) + decimal_value ds).
Proof.
  revert acc. induction ds as [|c r IH]; intros acc Hd Hr.
  - simpl. destruct rest as [|c r]; simpl in *.
    + f_equal. lia.
    + rewrite Hr. f_equal. lia.
  - simpl in Hd. apply andb_prop in Hd. destruct Hd as [D R].
    simpl append. cbn [scan_digits]. rewrite D.
    rewrite (IH _ R Hr). cbn [length decimal_value]. f_equal.
    rewrite Nat2Z.inj_succ, Z.pow_succ_r by lia. ring.
Qed.

Lemma get_drop (n k : nat) (s : string) :
  get k (drop n s) = get (n + k) s.
Proof.
  revert s. induction n as [|n IH]; intros s; [reflexivity|].
  destruct s as [|c r]; simpl.
  - destruct k; reflexivity.
  - apply IH.
Qed.

Lemma get_append_end (ds rest : string) (k : nat) :
  get (length ds + k) (ds ++ rest) = get k rest.
Proof. induction ds as [|c r IH]; [reflexivity|exact IH]. Qed.

End Characters.

(* ================================================================== *)
(** ** [strtoull] and [parse_size] *)

Section ParseSize.

Lemma strtoull_range (e : Z) (s : string) :
  0 <= st_val (strtoull e s) <= ULLONG_MAX.
Proof.
  unfold strtoull.
  destruct (read_sign (drop (span_space s) s)) as [neg sl].
  pose proof (scan_digits_nonneg
                (drop sl (drop (span_space s) s)) 0 ltac:(lia)) as Hv.
  destruct (scan_digits (drop sl (drop (span_space s) s)) 0) as [nd v].
  simpl in Hv. destruct nd as [|nd]; [simpl; unfold ULLONG_MAX; lia|].
  destruct (ULLONG_MAX <? v) eqn:Hov; simpl.
  - unfold ULLONG_MAX. lia.
  - apply Z.ltb_ge in Hov. destruct neg; [|lia].
    pose proof (Z.mod_pos_bound (- v) (2 ^ 64) ltac:(lia)).
    unfold ULLONG_MAX. lia.
Qed.

(** A plain run of digits is converted to its value, [endptr] is left
    just behind it and [errno] is untouched. *)
Lemma strtoull_digits (e : Z) (ds rest : string) :
  all_digits ds = true -> ds <> EmptyString ->
  starts_with_digit rest = false ->
  decimal_value ds <= ULLONG_MAX ->
  strtoull e (ds ++ rest)
  = {| st_val := decimal_value ds; st_end := length ds; st_errno := e |}.
Proof.
  intros Hd Hne Hr Hmax.
  destruct ds as [|c r]; [congruence|].
  pose proof Hd as Hd'. simpl in Hd'. apply andb_prop in Hd'.
  destruct Hd' as [D _].
  unfold strtoull.
  assert (Hws : span_space (String c r ++ rest) = 0%nat)
    by (simpl; now rewrite (isdigit_not_space c D)).
  rewrite Hws. cbn [drop]. simpl append at 1.
  rewrite (isdigit_no_sign c _ D). cbn [drop].
  change (String c (r ++ rest)) with (String c r ++ rest).
  rewrite (scan_digits_value _ _ 0 Hd Hr).
  cbn [length]. rewrite Z.mul_0_l, Z.add_0_l.
  apply Z.ltb_ge in Hmax. rewrite Hmax. reflexivity.
Qed.

(** [parse_size] either writes exactly one diagnostic to standard error
    and returns 0, or writes nothing and returns a nonzero [size_t]. *)
Lemma apply_multiplier_cases (s : string) (v m : Z) :
  0 <= v <= ULLONG_MAX -> 0 < m <= SIZE_MAX ->
  (exists d, apply_multiplier s v m = ([Print Stderr d], 0)
             /\ is_parse_diagnostic d = true)
  \/ (0 < v * m <= SIZE_MAX /\ apply_multiplier s v m = ([], v * m)).
Proof.
  intros Hv Hm. unfold apply_multiplier.
  destruct (ULLONG_MAX / m <? v) eqn:Hov; [left; eexists; split; reflexivity|].
  apply Z.ltb_ge in Hov.
  assert (Hprod : v * m <= ULLONG_MAX).
  { pose proof (Z.mul_div_le ULLONG_MAX m ltac:(lia)). nia. }
  assert (Hw : wrap (wrap v * m) = v * m).
  { rewrite (wrap_small v) by (unfold ULLONG_MAX, SIZE_MOD, SIZE_WIDTH in *; lia).
    apply wrap_small. unfold ULLONG_MAX, SIZE_MOD, SIZE_WIDTH in *. nia. }
  cbv zeta. rewrite Hw.
  destruct ((v * m =? 0) && (v =? 0)) eqn:Hz; [left; eexists; split; reflexivity|].
  right. split; [|reflexivity].
  apply andb_false_iff in Hz.
  unfold SIZE_MAX, SIZE_MOD, SIZE_WIDTH, ULLONG_MAX in *.
  destruct Hz as [Hz|Hz]; apply Z.eqb_neq in Hz; nia.
Qed.

Lemma suffix_multiplier_range (c : ascii) (m : Z) :
  suffix_multiplier c = Some m -> 0 < m <= SIZE_MAX.
Proof.
  destruct c as [[] [] [] [] [] [] [] []]; intros H;
    vm_compute in H; try discriminate H; inversion H; vm_compute;
    split; congruence.
Qed.

Lemma parse_size_cases (e : Z) (s : string) :
  (exists d, parse_size e s = ([Print Stderr d], 0)
             /\ is_parse_diagnostic d = true)
  \/ (exists n, 0 < n <= SIZE_MAX /\ parse_size e s = ([], n)).
Proof.
  unfold parse_size. pose proof (strtoull_range e s) as Hv.
  destruct (_ || _); [left; eexists; split; reflexivity|].
  destruct (_ && _); [left; eexists; split; reflexivity|].
  destruct (get (st_end (strtoull e s)) s) as [c|].
  - destruct (suffix_multiplier c) as [m|] eqn:Hm; [|left; eexists; split; reflexivity].
    destruct (get (S (st_end (strtoull e s))) s); [left; eexists; split; reflexivity|].
    destruct (apply_multiplier_cases s _ m Hv (suffix_multiplier_range c m Hm))
      as [H|[H1 H2]]; [now left|right; eauto].
  - destruct (apply_multiplier_cases s (st_val (strtoull e s)) 1 Hv
                ltac:(vm_compute; split; congruence))
      as [H|[H1 H2]]; [now left|right].
    rewrite Z.mul_1_r in *. eauto.
Qed.

Lemma apply_multiplier_exact (s : string) (v m : Z) :
  0 <= v -> 0 < m -> v * m <> 0 -> v * m <= SIZE_MAX ->
  apply_multiplier s v m = ([], v * m).
Proof.
  intros Hv Hm Hnz Hmax. unfold apply_multiplier.
  assert (Hov : (ULLONG_MAX / m <? v) = false).
  { apply Z.ltb_ge. apply Z.div_le_lower_bound; [lia|].
    unfold SIZE_MAX, SIZE_MOD, SIZE_WIDTH, ULLONG_MAX in *. lia. }
  rewrite Hov. cbv zeta.
  rewrite (wrap_small v) by (unfold SIZE_MAX, SIZE_MOD, SIZE_WIDTH in *; nia).
  rewrite wrap_small by (unfold SIZE_MAX, SIZE_MOD, SIZE_WIDTH in *; nia).
  apply Z.eqb_neq in Hnz. rewrite Hnz. reflexivity.
Qed.

(** A digit string with a suffix letter: the value times the multiplier. *)
Lemma parse_size_suffixed (e : Z) (ds : string) (c : ascii) (p : Z) :
  all_digits ds = true -> ds <> EmptyString ->
  suffix_power c = Some p ->
  decimal_value ds * 1024 ^ p <> 0 ->
  decimal_value ds * 1024 ^ p <= SIZE_MAX ->
  parse_size e (ds ++ String c EmptyString)
  = ([], decimal_value ds * 1024 ^ p).
Proof.
  intros Hd Hne Hp Hnz Hmax.
  pose proof (decimal_value_nonneg ds Hd) as Hv.
  pose proof (suffix_power_range c p Hp) as Hpr.
  assert (Hpow : 1024 <= 1024 ^ p).
  { replace 1024 with (1024 ^ 1) at 1 by reflexivity.
    apply Z.pow_le_mono_r; lia. }
  unfold parse_size.
  rewrite (strtoull_digits e ds (String c EmptyString) Hd Hne).
  2:{ simpl. exact (suffix_not_digit c p Hp). }
  2:{ unfold SIZE_MAX, SIZE_MOD, SIZE_WIDTH, ULLONG_MAX in *. nia. }
  cbn [st_val st_end st_errno].
  destruct ds as [|d r]; [congruence|]. cbn [length Nat.eqb orb].
  assert (Hv0 : (decimal_value (String d r) =? 0) = false)
    by (apply Z.eqb_neq; nia).
  rewrite Hv0. cbn [andb].
  assert (Hmx : (decimal_value (String d r) =? ULLONG_MAX) = false).
  { apply Z.eqb_neq. unfold SIZE_MAX, SIZE_MOD, SIZE_WIDTH, ULLONG_MAX in *. nia. }
  rewrite Hmx. cbn [andb].
  change (S (length r)) with (length (String d r)).
  rewrite <- (Nat.add_0_r (length (String d r))) at 1.
  rewrite get_append_end. cbn [get].
  rewrite suffix_multiplier_power, Hp. cbn [option_map].
  replace (S (length (String d r))) with (length (String d r) + 1)%nat by lia.
  rewrite get_append_end. cbn [get].
  apply apply_multiplier_exact; lia.
Qed.

(** A digit string alone: the value itself. *)
Lemma parse_size_plain (e : Z) (ds : string) :
  e <> ERANGE ->
  all_digits ds = true -> ds <> EmptyString ->
  decimal_value ds <> 0 -> decimal_value ds <= SIZE_MAX ->
  parse_size e ds = ([], decimal_value ds).
Proof.
  intros He Hd Hne Hnz Hmax.
  pose proof (decimal_value_nonneg ds Hd) as Hv.
  unfold parse_size.
  pose proof (strtoull_digits e ds EmptyString Hd Hne eq_refl Hmax) as E.
  assert (Happ : ds ++ "" = ds).
  { clear. induction ds as [|c r IH]; [reflexivity|]. simpl. now rewrite IH. }
  rewrite Happ in E. rewrite E. cbn [st_val st_end st_errno].
  destruct ds as [|d r]; [congruence|]. cbn [length Nat.eqb orb].
  apply Z.eqb_neq in Hnz. rewrite Hnz. cbn [andb].
  apply Z.eqb_neq in He. rewrite He, andb_false_r.
  change (S (length r)) with (length (String d r)).
  pose proof (get_append_end (String d r) EmptyString 0) as G.
  rewrite Nat.add_0_r, Happ in G. rewrite G. cbn [get].
  rewrite <- (Z.mul_1_r (decimal_value (String d r))) at 2.
  apply apply_multiplier_exact; apply Z.eqb_neq in Hnz; lia.
Qed.

Lemma parse_diagnostic_fatal (d : message) :
  is_parse_diagnostic d = true -> is_fatal_diagnostic d = true.
Proof. destruct d; simpl; congruence. Qed.

Lemma strtoull_end (e : Z) (s : string) :
  let u := strip_sign (skip_spaces s) in
  let sl := snd (read_sign (skip_spaces s)) in
  let nd := fst (scan_digits u 0) in
  st_end (strtoull e s)
  = match nd with O => O | S _ => (span_space s + sl + nd)%nat end.
Proof.
  cbv zeta. unfold strtoull.
  rewrite <- read_sign_strip, <- span_space_skip.
  destruct (read_sign (drop (span_space s) s)) as [neg sl]. cbn [snd].
  destruct (scan_digits (drop sl (drop (span_space s) s)) 0) as [nd v].
  cbn [fst]. destruct nd; [reflexivity|].
  destruct (ULLONG_MAX <? v); reflexivity.
Qed.

Lemma get_after_digits (s : string) (k : nat) :
  let u := strip_sign (skip_spaces s) in
  let sl := snd (read_sign (skip_spaces s)) in
  let nd := fst (scan_digits u 0) in
  get (span_space s + sl + nd + k) s = get k (skip_digits u).
Proof.
  cbv zeta.
  rewrite <- (scan_digits_skip (strip_sign (skip_spaces s)) 0), get_drop.
  generalize (fst (scan_digits (strip_sign (skip_spaces s)) 0)) as nd.
  intros nd. rewrite <- read_sign_strip, get_drop.
  generalize (snd (read_sign (skip_spaces s))) as sl.
  intros sl. rewrite <- span_space_skip, get_drop.
  f_equal. lia.
Qed.


End ParseSize.

(* ================================================================== *)
(** ** The page policy and the touch loop *)

Section TouchLoop.

(** What the [strcmp] chain computes, against the policy table. *)
Lemma select_mode_table (arg : string) :
  select_mode arg
  = match mode_of_token arg with
    | Some m => ([Print Stdout (mode_banner m)], Continue (policy_of_mode m))
    | None => ([Print Stderr (MsgInvalidMode arg)], Return 1)
    end.
Proof.
  unfold mode_of_token, select_mode.
  destruct (arg =? "4k")%string; [reflexivity|].
  destruct (arg =? "thp")%string; [reflexivity|].
  destruct (arg =? "2m")%string; [reflexivity|].
  destruct (arg =? "1g")%string; reflexivity.
Qed.

Lemma mode_page_size (m : PageSizeMode) :
  mmap_page_size (flags_of_mode m) = stride_of_mode m.
Proof. destruct m; reflexivity. Qed.

Lemma stride_pos (m : PageSizeMode) : 0 < stride_of_mode m.
Proof. destruct m; reflexivity. Qed.

(** A region inside the address space leaves room for one more stride. *)
Lemma in_address_space_room (page addr len : Z) :
  0 < page -> in_address_space page addr len -> len + page <= SIZE_MOD.
Proof.
  intros Hp (Ha & Hm & Hl).
  pose proof (Z.div_mod addr page ltac:(lia)) as E. rewrite Hm in E.
  assert (0 < addr / page) by nia. nia.
Qed.

(** [m] more iterations from [i]: the loop writes at [i], [i + step], ...
    and leaves with the count advanced by [m]. *)
Lemma touch_loop_run (addr map_size step : Z) (m : nat) :
  forall (fuel : nat) (i c : Z),
    (m < fuel)%nat -> 0 < step -> 0 <= i -> 0 <= c ->
    c + Z.of_nat m < SIZE_MOD ->
    i + Z.of_nat m * step < SIZE_MOD ->
    map_size <= i + Z.of_nat m * step ->
    i + (Z.of_nat m - 1) * step < map_size ->
    touch_loop fuel addr map_size step i c
    = (map (fun off => Touch addr off (off mod 256)) (touch_offsets m i step),
       Continue (c + Z.of_nat m)).
Proof.
  induction m as [|m IH]; intros fuel i c Hf Hs Hi Hc Hcm Him Hge Hlt.
  - destruct fuel as [|fuel]; [lia|]. simpl.
    assert (E : (i <? map_size) = false) by (apply Z.ltb_ge; lia).
    rewrite E. unfold ret. f_equal. f_equal. lia.
  - destruct fuel as [|fuel]; [lia|]. cbn [touch_loop].
    assert (E : (i <? map_size) = true) by (apply Z.ltb_lt; nia).
    rewrite E.
    rewrite (wrap_small (i + step)) by nia.
    rewrite (wrap_small (c + 1)) by lia.
    rewrite (IH fuel (i + step) (c + 1)) by nia.
    cbn. f_equal. f_equal. lia.
Qed.

(** From the start, [ceil (map_size / step)] iterations. *)
Lemma touch_loop_total (fuel : nat) (addr map_size step : Z) :
  0 < step -> 0 < map_size -> map_size + step <= SIZE_MOD ->
  (Z.to_nat (ceil_div map_size step) < fuel)%nat ->
  touch_loop fuel addr map_size step 0 0
  = (map (fun off => Touch addr off (off mod 256))
         (touch_offsets (Z.to_nat (ceil_div map_size step)) 0 step),
     Continue (ceil_div map_size step)).
Proof.
  intros Hs Hm Hroom Hf.
  pose proof (ceil_div_bounds map_size step Hs) as B.
  pose proof (ceil_div_pos map_size step Hs Hm) as P.
  rewrite (touch_loop_run addr map_size step
             (Z.to_nat (ceil_div map_size step)) fuel 0 0);
    rewrite ?Z2Nat.id by lia; try lia; try nia.
  reflexivity.
Qed.

(** Why the region must leave room for one stride: at [SIZE_MAX] bytes
    and a stride of 4096 the index wraps to 0 before it reaches the
    size, and no amount of fuel ends the loop. *)
Lemma touch_loop_wraps (addr : Z) (fuel : nat) :
  forall i c, 0 <= i < SIZE_MOD -> i mod 4096 = 0 ->
    snd (touch_loop fuel addr SIZE_MAX 4096 i c) = OutOfFuel.
Proof.
  induction fuel as [|fuel IH]; intros i c Hi Hm; [reflexivity|].
  cbn [touch_loop].
  assert (Hlt : i < SIZE_MAX).
  { pose proof (Z.div_mod i 4096 ltac:(lia)) as E. rewrite Hm in E.
    unfold SIZE_MAX, SIZE_MOD, SIZE_WIDTH in *.
    change (2 ^ 64) with 18446744073709551616 in *. lia. }
  apply Z.ltb_lt in Hlt. rewrite Hlt.
  specialize (IH (wrap (i + 4096)) (wrap (c + 1)) (wrap_range _)).
  destruct (touch_loop fuel addr SIZE_MAX 4096
              (wrap (i + 4096)) (wrap (c + 1))) as [t o].
  cbn [bind emit fst snd] in *. apply IH.
  unfold wrap.
  rewrite Z.mod_mod_divide by (exists (2 ^ 52); reflexivity).
  rewrite <- Z.add_mod_idemp_l, Hm by lia. reflexivity.
Qed.

(** Whatever the fuel, the loop emits touches inside the region only and
    does not leave [main]. *)
Lemma touch_loop_events (addr map_size step : Z) (fuel : nat) :
  forall i c, 0 <= i ->
    Forall (fun e => exists off, e = Touch addr off (off mod 256)
                                 /\ 0 <= off < map_size)
           (fst (touch_loop fuel addr map_size step i c))
    /\ forall code, snd (touch_loop fuel addr map_size step i c) <> Return code.
Proof.
  induction fuel as [|fuel IH]; intros i c Hi.
  - split; [constructor|discriminate].
  - cbn [touch_loop]. destruct (i <? map_size) eqn:E.
    + destruct (IH (wrap (i + step)) (wrap (c + 1))
                   (proj1 (wrap_range _))) as [F R].
      destruct (touch_loop fuel addr map_size step
                  (wrap (i + step)) (wrap (c + 1))) as [t o].
      cbn in *. split; [|exact R].
      constructor; [|exact F]. exists i. apply Z.ltb_lt in E. split; [reflexivity|lia].
    + split; [constructor|discriminate].
Qed.

End TouchLoop.

(* ================================================================== *)
(** ** Runs of [main] *)

Section Runs.

Lemma fold_touches (addr len : Z) (tl : list event) :
  Forall (fun e => exists off, e = Touch addr off (off mod 256)
                               /\ 0 <= off < len) tl ->
  fold_left lifecycle_step tl (Mapped addr len) = Mapped addr len.
Proof.
  induction 1 as [|e tl (off & -> & Hoff) _ IH]; [reflexivity|].
  cbn [fold_left lifecycle_step].
  rewrite Z.eqb_refl. 
  destruct (0 <=? off) eqn:E1; [|lia].
  destruct (off <? len) eqn:E2; [|lia]. exact IH.
Qed.

Lemma touches_well_streamed (addr len : Z) (tl : list event) :
  Forall (fun e => exists off, e = Touch addr off (off mod 256)
                               /\ 0 <= off < len) tl ->
  forallb well_streamed tl = true.
Proof.
  induction 1 as [|e tl (off & -> & Hoff) _ IH]; [reflexivity|exact IH].
Qed.

Ltac split_after_mmap w pol thp size :=
  destruct (mode_eqb (mode pol) MODE_4K);
  destruct (mode_eqb (mode pol) MODE_THP && thp_eqb thp THP_MADVISE);
  destruct (w_madvise w);
  destruct (get_vmpte_kb (w_status_after w) <? 0);
  destruct (PAGE_SIZE_2M <=? size);
  destruct (PAGE_SIZE_1G <=? size);
  destruct (w_munmap w).

(** After a successful [mmap] the run ends in [return 0] as soon as the
    touch loop ends. *)
Lemma after_mmap_outcome fuel w pol thp vb size addr :
  snd (after_mmap fuel w pol thp vb size addr)
  = match snd (touch_loop fuel addr size (touch_step_size pol) 0 0) with
    | Continue _ => Return 0
    | Return c => Return c
    | OutOfFuel => OutOfFuel
    end.
Proof.
  unfold after_mmap.
  destruct (touch_loop fuel addr size (touch_step_size pol) 0 0) as [tl o].
  destruct o as [c|c|]; split_after_mmap w pol thp size; reflexivity.
Qed.

Lemma after_mmap_events fuel w pol thp vb size addr :
  forallb well_streamed (fst (after_mmap fuel w pol thp vb size addr)) = true.
Proof.
  unfold after_mmap.
  destruct (touch_loop_events addr size (touch_step_size pol) fuel 0 0
              ltac:(lia)) as [F R].
  destruct (touch_loop fuel addr size (touch_step_size pol) 0 0) as [tl o].
  cbn [fst snd] in F, R.
  pose proof (touches_well_streamed _ _ _ F) as FS.
  destruct o as [c|c|]; [|exfalso; exact (R c eq_refl)|];
    split_after_mmap w pol thp size; cbn;
    rewrite ?forallb_app, FS; reflexivity.
Qed.

Lemma after_mmap_returns fuel w pol thp vb size addr tr code :
  after_mmap fuel w pol thp vb size addr = (tr, Return code) ->
  code = 0 /\ fold_left lifecycle_step tr (Mapped addr size) = Released
  /\ In Getchar tr.
Proof.
  unfold after_mmap.
  destruct (touch_loop_events addr size (touch_step_size pol) fuel 0 0
              ltac:(lia)) as [F R].
  destruct (touch_loop fuel addr size (touch_step_size pol) 0 0) as [tl o].
  cbn [fst snd] in F, R.
  pose proof (fold_touches _ _ _ F) as FT.
  destruct o as [c|c|]; [| exfalso; exact (R c eq_refl) | ].
  - split_after_mmap w pol thp size; cbn; intros H; inversion H; subst; clear H;
      (split; [reflexivity|split]).
    all: try (cbn [fold_left lifecycle_step]; rewrite ?Z.eqb_refl; cbn [andb];
              rewrite fold_left_app, FT; cbn [fold_left lifecycle_step];
              rewrite ?Z.eqb_refl; reflexivity).
    all: cbn [In]; rewrite in_app_iff; cbn [In]; tauto.
  - split_after_mmap w pol thp size; cbn; discriminate.
Qed.

Lemma quiet_lifecycle (tr : list event) (st : mapping_state) :
  forallb is_quiet tr = true -> fold_left lifecycle_step tr st = st.
Proof.
  revert st. induction tr as [|e tr IH]; intros st H; [reflexivity|].
  cbn [forallb] in H. apply andb_prop in H. destruct H as [He Ht].
  cbn [fold_left]. destruct e; try discriminate He; cbn; now apply IH.
Qed.

Lemma app_nil_prefix {A} (r : list A) : r = ([] ++ r)%list.
Proof. reflexivity. Qed.

Lemma cons_prefix {A} (x : A) (l p r : list A) :
  l = (p ++ r)%list -> x :: l = ((x :: p) ++ r)%list.
Proof. intros ->. reflexivity. Qed.

Ltac find_prefix :=
  first [ apply app_nil_prefix | apply cons_prefix; find_prefix ].

Ltac case_cond :=
  match goal with
  | |- context [(?x mod ?y =? 0)] => destruct (x mod y =? 0) eqn:?
  | |- context [thp_eqb ?s _] => destruct s eqn:?
  | |- context [get_vmpte_kb ?f <? 0] => destruct (get_vmpte_kb f <? 0) eqn:?
  | |- context [w_mmap ?w ?a ?b ?c] => destruct (w_mmap w a b c) eqn:?
  | |- context [?e =? ENOMEM] => destruct (e =? ENOMEM)
  | |- context [?e =? EINVAL] => destruct (e =? EINVAL)
  | |- context [?e =? 12] => destruct (e =? 12)
  | |- context [?e =? 22] => destruct (e =? 22)
  end.

Ltac main_mode_cases n M Hn :=
  cbn -[after_mmap]; repeat (case_cond; cbn -[after_mmap]);
  first
    [ eexists; split; [reflexivity|]; split; [reflexivity|];
      split; [reflexivity|];
      split; [reflexivity|]; split; [cbn; intuition discriminate|];
      repeat (apply Forall_cons; [first [exact I | exact Hn]|]);
      apply Forall_nil
    | eexists; exists n, M; do 3 eexists;
      split; [f_equal; find_prefix|];
      repeat split;
      first [ reflexivity | assumption | exact (proj1 Hn) | exact (proj2 Hn) ] ].

Lemma main_run (fuel : nat) (w : world) (argv : list string) :
  match classify w argv with
  | Some _ =>
      exists tr,
        main fuel w argv = (tr, Return 1)
        /\ lifecycle tr = NotMapped
        /\ existsb is_mmap_ok tr = false
        /\ forallb stream_policy tr = true
        /\ ~ In Getchar tr
        /\ Forall mmap_len_positive tr
  | None =>
      exists pre size m addr thp vb,
        main fuel w argv
        = ((pre ++ Mmap size (PROT_READ + PROT_WRITE) (flags_of_mode m)
                       (MapOk addr)
                :: fst (after_mmap fuel w (policy_of_mode m) thp vb size addr))%list,
           snd (after_mmap fuel w (policy_of_mode m) thp vb size addr))
        /\ forallb is_quiet pre = true
        /\ forallb stream_policy pre = true
        /\ 0 < size <= SIZE_MAX
        /\ parse_size errno_at_startup (nth 1 argv "") = ([], size)
        /\ mode_of_token (nth 2 argv "") = Some m
        /\ w_mmap w size (PROT_READ + PROT_WRITE) (flags_of_mode m) = MapOk addr
  end.
Proof.
  unfold classify, main. cbv zeta.
  destruct (Nat.eqb_spec (List.length argv) 3) as [Hlen|Hlen]; cbn [negb].
  2:{ assert (E : (Z.of_nat (List.length argv) =? 3) = false) by (apply Z.eqb_neq; lia).
      rewrite E. cbn. eexists. repeat split; try reflexivity.
      - intros [H|[]]; discriminate.
      - repeat constructor. }
  rewrite Hlen. cbn [Z.of_nat Pos.of_succ_nat Pos.succ Z.eqb Pos.eqb negb].
  destruct (parse_size_cases errno_at_startup (nth 1 argv ""))
    as [(d & Hp & Hd)|(n & Hn & Hp)]; rewrite Hp; cbn [snd].
  { cbn. eexists. repeat split; try reflexivity.
    - cbn. rewrite (parse_diagnostic_fatal d Hd), orb_true_r. reflexivity.
    - intros [H|[]]; discriminate.
    - repeat constructor. }
  assert (E0 : (n =? 0) = false) by (apply Z.eqb_neq; lia). rewrite E0.
  rewrite (select_mode_table (nth 2 argv "")).
  destruct (mode_of_token (nth 2 argv "")) as [m|].
  2:{ cbn. eexists. repeat split; try reflexivity.
    - intros [H|[]]; discriminate.
    - repeat constructor. }
  destruct m;
    [ main_mode_cases n MODE_4K Hn | main_mode_cases n MODE_THP Hn
    | main_mode_cases n MODE_2M Hn | main_mode_cases n MODE_1G Hn ].
Qed.

Lemma quiet_well_streamed (tr : list event) :
  forallb is_quiet tr = true -> forallb stream_policy tr = true ->
  forallb well_streamed tr = true.
Proof.
  induction tr as [|e tr IH]; [reflexivity|]. cbn [forallb].
  intros Hq Hs. apply andb_prop in Hq, Hs.
  destruct Hq as [Hq1 Hq2], Hs as [Hs1 Hs2].
  rewrite (IH Hq2 Hs2), andb_true_r. unfold well_streamed.
  rewrite Hs1. destruct e; try discriminate Hq1; reflexivity.
Qed.

Lemma well_streamed_policy (tr : list event) :
  forallb well_streamed tr = true -> forallb stream_policy tr = true.
Proof.
  induction tr as [|e tr IH]; [reflexivity|]. cbn [forallb].
  intros H. apply andb_prop in H. destruct H as [H1 H2].
  unfold well_streamed in H1. apply andb_prop in H1.
  now rewrite (proj1 H1), (IH H2).
Qed.

Lemma well_streamed_lens (tr : list event) :
  forallb well_streamed tr = true -> Forall mmap_len_positive tr.
Proof.
  induction tr as [|e tr IH]; [constructor|]. cbn [forallb].
  intros H. apply andb_prop in H. destruct H as [H1 H2].
  constructor; [|exact (IH H2)].
  unfold well_streamed in H1. apply andb_prop in H1.
  destruct e; try exact I. destruct H1 as [_ H1]. discriminate H1.
Qed.

(** Every run writes each diagnostic to its stream. *)
Lemma main_stream_policy (fuel : nat) (w : world) (argv : list string) :
  forallb stream_policy (fst (main fuel w argv)) = true.
Proof.
  pose proof (main_run fuel w argv) as H.
  destruct (classify w argv).
  - destruct H as (tr & -> & _ & _ & Hs & _). exact Hs.
  - destruct H as (pre & size & m & addr & thp & vb & -> & Hq & Hs & _).
    cbn [fst]. rewrite forallb_app. rewrite Hs. cbn [forallb andb].
    apply well_streamed_policy, after_mmap_events.
Qed.

(** Every [mmap] of every run asks for a nonzero length. *)
Lemma main_mmap_lens (fuel : nat) (w : world) (argv : list string) :
  Forall mmap_len_positive (fst (main fuel w argv)).
Proof.
  pose proof (main_run fuel w argv) as H.
  destruct (classify w argv).
  - destruct H as (tr & -> & _ & _ & _ & _ & Hl). exact Hl.
  - destruct H as (pre & size & m & addr & thp & vb & -> & Hq & Hs & Hn & _).
    cbn [fst]. apply Forall_app. split.
    + apply well_streamed_lens, quiet_well_streamed; assumption.
    + constructor; [exact Hn|].
      apply well_streamed_lens, after_mmap_events.
Qed.

(** A run that is in no fatal class returns 0 once the loop has fuel. *)
Lemma main_returns (w : world) (argv : list string) :
  classify w argv = None -> mmap_contract w ->
  exists fuel0, forall fuel, (fuel0 <= fuel)%nat ->
    snd (main fuel w argv) = Return 0.
Proof.
  intros Hc Hw.
  pose proof (main_run 0 w argv) as H0. rewrite Hc in H0.
  destruct H0 as (_ & size & m & addr & _ & _ & _ & _ & _ & Hn & Hp & Hm & Hmap).
  exists (S (Z.to_nat (ceil_div size (stride_of_mode m)))). intros fuel Hf.
  pose proof (main_run fuel w argv) as H. rewrite Hc in H.
  destruct H as (pre & size' & m' & addr' & thp & vb & -> & _ & _ & _
                 & Hp' & Hm' & _).
  rewrite Hp in Hp'. rewrite Hm in Hm'.
  inversion Hp'; inversion Hm'; subst size' m'. clear Hp' Hm'.
  cbn [snd]. rewrite after_mmap_outcome.
  pose proof (Hw _ _ _ _ Hmap) as Hsp. rewrite mode_page_size in Hsp.
  pose proof (in_address_space_room _ _ _ (stride_pos m) Hsp) as Hroom.
  cbn [touch_step_size policy_of_mode].
  rewrite (touch_loop_total fuel addr' size (stride_of_mode m)
             (stride_pos m) (proj1 Hn) Hroom ltac:(lia)).
  reflexivity.
Qed.

(** A run that returns after a successful [mmap] returns 0, has waited
    for the operator, and has released the region. *)
Lemma main_released (fuel : nat) (w : world) (argv : list string)
  (tr : list event) (code : Z) :
  main fuel w argv = (tr, Return code) ->
  existsb is_mmap_ok tr = true ->
  code = 0 /\ lifecycle tr = Released /\ In Getchar tr
  /\ classify w argv = None.
Proof.
  intros Hrun Hok.
  pose proof (main_run fuel w argv) as H.
  destruct (classify w argv).
  - destruct H as (tr' & E & _ & Hno & _). rewrite Hrun in E.
    inversion E; subst tr'. congruence.
  - destruct H as (pre & size & m & addr & thp & vb & E & Hq & _).
    rewrite Hrun in E. inversion E as [[Etr Eo]].
    destruct (after_mmap_returns fuel w (policy_of_mode m) thp vb size addr
                (fst (after_mmap fuel w (policy_of_mode m) thp vb size addr))
                code) as (Hc & Hl & Hg).
    { rewrite Eo. apply surjective_pairing. }
    repeat split; [exact Hc| |].
    + unfold lifecycle. rewrite fold_left_app, (quiet_lifecycle pre _ Hq).
      exact Hl.
    + apply in_or_app. right. right. exact Hg.
Qed.

(** What [Released] says of a trace: one successful [mmap], later one
    [munmap] of that very region, and no other [munmap]. *)
Lemma violation_absorbs (tr : list event) :
  fold_left lifecycle_step tr Violation = Violation.
Proof.
  induction tr as [|e tr IH]; [reflexivity|].
  destruct e as [| | |? ? ? []| | | |]; exact IH.
Qed.

Lemma released_no_munmap (tr : list event) :
  fold_left lifecycle_step tr Released = Released ->
  existsb is_munmap tr = false.
Proof.
  induction tr as [|e tr IH]; [reflexivity|]. cbn [fold_left existsb].
  destruct e as [| | |? ? ? []| | | |]; cbn;
    try exact IH; rewrite violation_absorbs; discriminate.
Qed.

Lemma mapped_released (addr len : Z) (tr : list event) :
  fold_left lifecycle_step tr (Mapped addr len) = Released ->
  exists mid post,
    tr = (mid ++ Munmap addr len :: post)%list
    /\ existsb is_munmap mid = false /\ existsb is_munmap post = false.
Proof.
  induction tr as [|e tr IH]; [discriminate|]. cbn [fold_left].
  assert (K : forall e', is_munmap e' = false ->
            fold_left lifecycle_step tr (Mapped addr len) = Released ->
            exists mid post,
              (e' :: tr = mid ++ Munmap addr len :: post)%list
              /\ existsb is_munmap mid = false
              /\ existsb is_munmap post = false).
  { intros e' He' H. destruct (IH H) as (mid & post & -> & Hm & Hp).
    exists (e' :: mid), post. cbn [existsb]. rewrite He', Hm. auto. }
  destruct e as [| | |? ? ? []|a l ?|a off ?| |a l]; cbn [lifecycle_step];
    try (apply K; reflexivity);
    try (rewrite violation_absorbs; discriminate).
  - destruct ((a =? addr) && (l =? len)); [apply K; reflexivity|].
    rewrite violation_absorbs; discriminate.
  - destruct ((a =? addr) && (0 <=? off) && (off <? len));
      [apply K; reflexivity|].
    rewrite violation_absorbs; discriminate.
  - destruct ((a =? addr) && (l =? len)) eqn:E;
      [|rewrite violation_absorbs; discriminate].
    apply andb_prop in E. destruct E as [Ea El].
    apply Z.eqb_eq in Ea, El. subst a l. intros H.
    exists [], tr. split; [reflexivity|]. split; [reflexivity|].
    now apply released_no_munmap.
Qed.

Lemma lifecycle_released (tr : list event) :
  lifecycle tr = Released ->
  exists pre len prot flags addr mid post,
    tr = (pre ++ Mmap len prot flags (MapOk addr)
              :: mid ++ Munmap addr len :: post)%list
    /\ existsb is_munmap pre = false
    /\ existsb is_munmap mid = false
    /\ existsb is_munmap post = false.
Proof.
  unfold lifecycle.
  induction tr as [|e tr IH]; [discriminate|]. cbn [fold_left].
  assert (K : forall e', is_munmap e' = false ->
            fold_left lifecycle_step tr NotMapped = Released ->
            exists pre len prot flags addr mid post,
              (e' :: tr = pre ++ Mmap len prot flags (MapOk addr)
                               :: mid ++ Munmap addr len :: post)%list
              /\ existsb is_munmap pre = false
              /\ existsb is_munmap mid = false
              /\ existsb is_munmap post = false).
  { intros e' He' H.
    destruct (IH H) as (pre & len & prot & flags & addr & mid & post
                        & -> & Hpre & Hm & Hp).
    exists (e' :: pre), len, prot, flags, addr, mid, post.
    cbn [existsb]. rewrite He', Hpre. auto. }
  destruct e as [| | |len prot flags [addr|err]| | | |]; cbn [lifecycle_step];
    try (apply K; reflexivity);
    try (rewrite violation_absorbs; discriminate).
  intros H. destruct (mapped_released addr len tr H) as (mid & post & -> & Hm & Hp).
  exists [], len, prot, flags, addr, mid, post. auto.
Qed.

End Runs.

(* ================================================================== *)
(** * The properties of the specification *)

Section Specification.

(** C1 (as amended).  For every [total_size] and every [page_size > 0]
    such that neither [total_size + page_size - 1] nor the result
    exceeds [SIZE_MAX], [calculate_overhead total_size page_size] is
    [ceil (total_size / page_size) * 8]; in particular
    [calculate_overhead 1048576 4096 = 2048] and
    [calculate_overhead 1073741824 2097152 = 4096]. *)
Theorem calculate_overhead_ceil :
  (forall total_size page_size,
      0 <= total_size -> 0 < page_size ->
      total_size + page_size - 1 <= SIZE_MAX ->
      ceil_div total_size page_size * 8 <= SIZE_MAX ->
      calculate_overhead total_size page_size
      = ceil_div total_size page_size * 8)
  /\ calculate_overhead 1048576 4096 = 2048
  /\ calculate_overhead 1073741824 2097152 = 4096.
Proof.
  split; [|split; reflexivity].
  intros t p Ht Hp Hs Hr. now apply calculate_overhead_exact.
Qed.

Lemma calculate_overhead_ceil_witness :
  calculate_overhead 5242880 2097152 = ceil_div 5242880 2097152 * 8
  /\ ceil_div 5242880 2097152 = 3.
Proof.
  split; [|reflexivity].
  apply (proj1 calculate_overhead_ceil); vm_compute; congruence.
Defined.

(** C1 as stated fails where the sum wraps: for [total_size = SIZE_MAX]
    and [page_size = 4096], both of type [size_t], the function returns 0
    while [ceil (total_size / page_size) * 8] is [2 ^ 55]. *)
Lemma calculate_overhead_wraps :
  0 <= SIZE_MAX < SIZE_MOD /\ 0 < 4096 < SIZE_MOD
  /\ calculate_overhead SIZE_MAX 4096 = 0
  /\ ceil_div SIZE_MAX 4096 * 8 = 2 ^ 55
  /\ calculate_overhead SIZE_MAX 4096 <> ceil_div SIZE_MAX 4096 * 8.
Proof. vm_compute. repeat split; congruence. Qed.

(** C2.  For every size string of at least one decimal digit followed by
    exactly one suffix letter of K, k, M, m, G, g, [parse_size] returns
    the numeric value times 1024, 1024^2 or 1024^3 respectively,
    provided the product is nonzero and representable; with no suffix it
    returns the numeric value itself; "1G" yields 1073741824, "256M"
    yields 268435456 and "512K" yields 524288. *)
Theorem parse_size_scaled :
  (forall e ds c p,
      all_digits ds = true -> ds <> EmptyString ->
      suffix_power c = Some p ->
      decimal_value ds * 1024 ^ p <> 0 ->
      decimal_value ds * 1024 ^ p <= SIZE_MAX ->
      parse_size e (ds ++ String c EmptyString)
      = ([], decimal_value ds * 1024 ^ p))
  /\ (forall e ds,
         e <> ERANGE ->
         all_digits ds = true -> ds <> EmptyString ->
         decimal_value ds <> 0 -> decimal_value ds <= SIZE_MAX ->
         parse_size e ds = ([], decimal_value ds))
  /\ parse_size errno_at_startup "1G" = ([], 1073741824)
  /\ parse_size errno_at_startup "256M" = ([], 268435456)
  /\ parse_size errno_at_startup "512K" = ([], 524288).
Proof.
  split; [exact parse_size_suffixed|].
  split; [exact parse_size_plain|].
  repeat split; reflexivity.
Qed.

Lemma parse_size_scaled_witness :
  parse_size errno_at_startup "16m" = ([], 16 * 1024 ^ 2)
  /\ parse_size errno_at_startup "4096" = ([], 4096).
Proof.
  split.
  - apply (proj1 parse_size_scaled errno_at_startup "16" "m"%char 2);
      vm_compute; congruence.
  - apply (proj1 (proj2 parse_size_scaled) errno_at_startup "4096");
      vm_compute; congruence.
Defined.





(** C4.  "abc" fails as an invalid number, "10X" as an invalid suffix,
    "10K5" with trailing characters after the suffix and "0" because the
    byte count is zero; each time [main] writes that diagnostic to
    standard error and returns 1 without mapping. *)
Theorem parse_size_rejections :
  forall fuel w argv0 arg,
    main fuel w [argv0; "abc"; arg]
    = ([Print Stderr (MsgInvalidSizeValue "abc")], Return 1)
    /\ main fuel w [argv0; "10X"; arg]
       = ([Print Stderr (MsgInvalidSuffix "X" "10X")], Return 1)
    /\ main fuel w [argv0; "10K5"; arg]
       = ([Print Stderr (MsgTrailingChars "10K5")], Return 1)
    /\ main fuel w [argv0; "0"; arg]
       = ([Print Stderr MsgZeroSize], Return 1).
Proof. intros fuel w argv0 arg. repeat split; reflexivity. Qed.

(** C6.  For modes 2m and 1g, a parsed size that is not a multiple of
    the mode's huge page size is reported on standard error and [main]
    returns 1 before any [mmap]; "3M" with "2m" is rejected so, while
    "2M" with "2m" passes the check and goes on to the probes. *)
Theorem misaligned_size_rejected :
  (forall fuel w argv0 s arg m al n,
      mode_of_token arg = Some m -> alignment_of_mode m = Some al ->
      parse_size errno_at_startup s = ([], n) -> n mod al <> 0 ->
      main fuel w [argv0; s; arg]
      = ([Print Stdout (mode_banner m);
          Print Stderr (MsgNotMultiple n al arg)], Return 1))
  /\ (forall fuel w argv0,
         main fuel w [argv0; "3M"; "2m"]
         = ([Print Stdout MsgMode2M;
             Print Stderr (MsgNotMultiple 3145728 2097152 "2m")], Return 1))
  /\ (forall fuel w argv0,
         exists rest o,
           main fuel w [argv0; "2M"; "2m"]
           = (Print Stdout MsgMode2M :: ReadThpEnabled :: rest, o)).
Proof.
  split; [|split].
  - intros fuel w argv0 s arg m al n Hm Hal Hp Hmis.
    pose proof (parse_size_cases errno_at_startup s) as Hc.
    assert (Hn : (n =? 0) = false).
    { destruct Hc as [(d & Hd & _)|(n' & Hn' & E)]; rewrite Hp in *.
      - discriminate.
      - inversion E; subst. apply Z.eqb_neq. lia. }
    unfold main.
    cbn [List.length Z.of_nat Pos.of_succ_nat Pos.succ Z.eqb Pos.eqb negb nth].
    rewrite Hp. cbn [bind fst snd app]. rewrite Hn.
    rewrite select_mode_table, Hm.
    cbn [bind fst snd app policy_of_mode mode huge_page_size].
    rewrite Hal.
    apply Z.eqb_neq in Hmis. rewrite Hmis.
    destruct m; try discriminate Hal; reflexivity.
  - intros fuel w argv0. reflexivity.
  - intros fuel w argv0. unfold main.
    cbn -[after_mmap check_thp_status get_vmpte_kb].
    eexists _, _. reflexivity.
Qed.

Lemma misaligned_size_rejected_witness :
  main 0 sample_world ["prog"; "1536M"; "1g"]
  = ([Print Stdout MsgMode1G;
      Print Stderr (MsgNotMultiple (1536 * 2 ^ 20) (2 ^ 30) "1g")], Return 1).
Proof.
  apply (proj1 misaligned_size_rejected 0%nat sample_world "prog" "1536M"
           "1g" MODE_1G (2 ^ 30) (1536 * 2 ^ 20));
    vm_compute; congruence.
Defined.

Lemma sample_world_contract : mmap_contract sample_world.
Proof.
  intros len prot flags addr. cbn [w_mmap sample_world].
  destruct (len <=? 2 ^ 40) eqn:Hl; [|discriminate].
  destruct (2 ^ 30 mod mmap_page_size flags =? 0) eqn:Ha; [|discriminate].
  cbn [andb]. intros H. injection H as <-.
  apply Z.leb_le in Hl. apply Z.eqb_eq in Ha.
  unfold in_address_space, SIZE_MOD, SIZE_WIDTH.
  split; [reflexivity|]. split; [exact Ha|].
  change (2 ^ 40) with 1099511627776 in Hl.
  change (2 ^ 30) with 1073741824.
  change (2 ^ 64) with 18446744073709551616. lia.
Qed.

(** C7.  On every execution path that reaches past a successful [mmap],
    [munmap] is called on the mapped region exactly once before [main]
    returns, also when the final VmPTE probe fails: a returning run with
    a successful [mmap] in its trace has that [mmap], later one [munmap]
    of the same address and length, and no other [munmap]; and such a
    run does return once the region lies inside the address space. *)
Theorem munmap_exactly_once :
  (forall fuel w argv tr code,
      main fuel w argv = (tr, Return code) ->
      existsb is_mmap_ok tr = true ->
      lifecycle tr = Released
      /\ exists pre len prot flags addr mid post,
          tr = (pre ++ Mmap len prot flags (MapOk addr)
                    :: mid ++ Munmap addr len :: post)%list
          /\ existsb is_munmap pre = false
          /\ existsb is_munmap mid = false
          /\ existsb is_munmap post = false)
  /\ (forall w argv,
         classify w argv = None -> mmap_contract w ->
         exists fuel0, forall fuel, (fuel0 <= fuel)%nat ->
           snd (main fuel w argv) = Return 0
           /\ lifecycle (fst (main fuel w argv)) = Released).
Proof.
  split.
  - intros fuel w argv tr code Hrun Hok.
    destruct (main_released fuel w argv tr code Hrun Hok) as (_ & Hl & _).
    split; [exact Hl|]. now apply lifecycle_released.
  - intros w argv Hc Hw.
    destruct (main_returns w argv Hc Hw) as (fuel0 & Hret).
    exists fuel0. intros fuel Hf. split; [now apply Hret|].
    pose proof (Hret fuel Hf) as Hsnd.
    pose proof (main_run fuel w argv) as Hrun. rewrite Hc in Hrun.
    destruct Hrun as (pre & size & m & addr & thp & vb & E & _).
    eapply main_released.
    + rewrite <- Hsnd. apply surjective_pairing.
    + rewrite E. cbn [fst]. rewrite existsb_app. cbn [existsb is_mmap_ok].
      now rewrite orb_true_r.
Qed.

Lemma munmap_exactly_once_witness :
  get_vmpte_kb (w_status_after sample_world) = -1
  /\ lifecycle (fst (main 4 sample_world ["prog"; "8K"; "thp"])) = Released.
Proof.
  split; [reflexivity|].
  apply (proj1 munmap_exactly_once 4%nat sample_world ["prog"; "8K"; "thp"]
           (fst (main 4 sample_world ["prog"; "8K"; "thp"])) 0);
    vm_compute; reflexivity.
Defined.

(** C8.  [main] returns 1 exactly in the fatal classes (wrong argument
    count, unparsable size, invalid mode token, misaligned size for the
    huge-page modes, baseline VmPTE probe failure, [mmap] failure), and
    0 for every full run, which reaches the interactive checkpoint and
    the release, whether or not the [madvise] hint, the final VmPTE
    probe or the final [munmap] fails. *)
Theorem exit_status_classes :
  (forall fuel w argv c,
      classify w argv = Some c ->
      snd (main fuel w argv) = Return 1
      /\ ~ In Getchar (fst (main fuel w argv))
      /\ lifecycle (fst (main fuel w argv)) = NotMapped)
  /\ (forall fuel w argv tr code,
         classify w argv = None ->
         main fuel w argv = (tr, Return code) ->
         code = 0 /\ In Getchar tr /\ lifecycle tr = Released)
  /\ (forall w argv,
         classify w argv = None -> mmap_contract w ->
         exists fuel0, forall fuel, (fuel0 <= fuel)%nat ->
           snd (main fuel w argv) = Return 0).
Proof.
  split; [|split].
  - intros fuel w argv c Hc.
    pose proof (main_run fuel w argv) as H. rewrite Hc in H.
    destruct H as (tr & -> & Hl & _ & _ & Hg & _). auto.
  - intros fuel w argv tr code Hc Hrun.
    pose proof (main_run fuel w argv) as H. rewrite Hc in H.
    destruct H as (pre & size & m & addr & thp & vb & E & _).
    assert (Hok : existsb is_mmap_ok tr = true).
    { rewrite Hrun in E. inversion E. rewrite existsb_app.
      cbn [existsb is_mmap_ok]. now rewrite orb_true_r. }
    destruct (main_released fuel w argv tr code Hrun Hok) as (H0 & Hl & Hg & _).
    auto.
  - exact main_returns.
Qed.

Lemma exit_status_classes_witness :
  w_madvise sample_world = Some EINVAL
  /\ get_vmpte_kb (w_status_after sample_world) = -1
  /\ w_munmap sample_world = Some EINVAL
  /\ (0 = 0
      /\ In Getchar (fst (main 4 sample_world ["prog"; "8K"; "4k"]))
      /\ lifecycle (fst (main 4 sample_world ["prog"; "8K"; "4k"])) = Released)
  /\ snd (main 4 sample_world ["prog"; "8K"; "64k"]) = Return 1.
Proof.
  split; [reflexivity|]. split; [reflexivity|]. split; [reflexivity|].
  split.
  - apply (proj1 (proj2 exit_status_classes) 4%nat sample_world
             ["prog"; "8K"; "4k"]
             (fst (main 4 sample_world ["prog"; "8K"; "4k"])) 0);
      reflexivity.
  - apply (proj1 exit_status_classes 4%nat sample_world
             ["prog"; "8K"; "64k"] InvalidMode). reflexivity.
Defined.

(** C9 (as amended).  Every failure warning and every fatal diagnostic
    the program emits (the [madvise] hint-failure warnings, the
    final-probe-failure warning, the [munmap]-failure report, the usage,
    parsing, validation, baseline-probe and [mmap] errors) is written to
    standard error; the advisory THP-policy warnings (mode 4k or thp
    under policy 'never', mode thp under an unknown policy) are written
    to standard output. *)
Theorem diagnostic_streams :
  forall fuel w argv fd m,
    In (Print fd m) (fst (main fuel w argv)) ->
    (is_failure_warning m = true \/ is_fatal_diagnostic m = true ->
     fd = Stderr)
    /\ (is_thp_advisory m = true -> fd = Stdout).
Proof.
  intros fuel w argv fd m Hin.
  pose proof (main_stream_policy fuel w argv) as H.
  rewrite forallb_forall in H. specialize (H _ Hin). cbn [stream_policy] in H.
  split.
  - intros Hm.
    assert (E : is_failure_warning m || is_fatal_diagnostic m = true)
      by (apply orb_true_iff; exact Hm).
    rewrite E in H. destruct fd; [discriminate|reflexivity].
  - intros Hm. destruct m; try discriminate Hm;
      destruct fd; cbn in H; congruence.
Qed.

Lemma diagnostic_streams_witness :
  In (Print Stderr (MsgMunmapFailed EINVAL))
     (fst (main 4 sample_world ["prog"; "8K"; "4k"]))
  /\ (is_failure_warning (MsgMunmapFailed EINVAL) = true
       \/ is_fatal_diagnostic (MsgMunmapFailed EINVAL) = true ->
       Stderr = Stderr)
  /\ (is_thp_advisory (MsgMunmapFailed EINVAL) = true -> Stderr = Stdout).
Proof.
  assert (H : In (Print Stderr (MsgMunmapFailed EINVAL))
                 (fst (main 4 sample_world ["prog"; "8K"; "4k"])))
    by (vm_compute; tauto).
  split; [exact H|].
  exact (diagnostic_streams 4%nat sample_world ["prog"; "8K"; "4k"]
           Stderr (MsgMunmapFailed EINVAL) H).
Defined.

(** C9 as stated fails: under THP policy 'never' mode thp emits the
    advisory warning, a warning diagnostic, on standard output. *)
Lemma thp_warning_on_stdout :
  is_warning MsgWarnThpNever = true
  /\ check_thp_status (w_thp_enabled sample_world) = THP_NEVER
  /\ In (Print Stdout MsgWarnThpNever)
        (fst (main 4 sample_world ["prog"; "8K"; "thp"]))
  /\ ~ In (Print Stderr MsgWarnThpNever)
          (fst (main 4 sample_world ["prog"; "8K"; "thp"])).
Proof.
  repeat split; try reflexivity.
  - vm_compute. tauto.
  - vm_compute. intuition discriminate.
Qed.

(** C10.  [parse_size] uses 0 as its one in-band error value: on every
    failure path (invalid number, out-of-range literal, invalid suffix,
    trailing characters, multiplier overflow, zero result) it writes its
    diagnostic and returns 0, and it returns a nonzero value exactly
    when the input was accepted; [main] returns 1 on a 0 result, so
    that no [mmap] of any run is asked for zero bytes. *)
Theorem parse_size_zero_sentinel :
  (forall e s,
      (exists d, parse_size e s = ([Print Stderr d], 0)
                 /\ is_parse_diagnostic d = true)
      \/ (exists n, 0 < n <= SIZE_MAX /\ parse_size e s = ([], n)))
  /\ (forall fuel w argv0 s arg,
         snd (parse_size errno_at_startup s) = 0 ->
         main fuel w [argv0; s; arg]
         = (fst (parse_size errno_at_startup s), Return 1))
  /\ (forall fuel w argv len prot flags res,
         In (Mmap len prot flags res) (fst (main fuel w argv)) ->
         0 < len <= SIZE_MAX)
  /\ parse_size errno_at_startup "x1"
     = ([Print Stderr (MsgInvalidSizeValue "x1")], 0)
  /\ parse_size errno_at_startup "18446744073709551616"
     = ([Print Stderr (MsgSizeTooLarge "18446744073709551616")], 0)
  /\ parse_size errno_at_startup "1T"
     = ([Print Stderr (MsgInvalidSuffix "T" "1T")], 0)
  /\ parse_size errno_at_startup "1KB"
     = ([Print Stderr (MsgTrailingChars "1KB")], 0)
  /\ parse_size errno_at_startup "17179869184G"
     = ([Print Stderr (MsgOverflow "17179869184G")], 0)
  /\ parse_size errno_at_startup "0K" = ([Print Stderr MsgZeroSize], 0).
Proof.
  split; [exact parse_size_cases|].
  split; [|split; [|repeat split; reflexivity]].
  - intros fuel w argv0 s arg Hz. unfold main.
    cbn [List.length Z.of_nat Pos.of_succ_nat Pos.succ Z.eqb Pos.eqb negb nth].
    destruct (parse_size errno_at_startup s) as [diag n]. cbn [snd] in Hz.
    subst n. cbn. now rewrite app_nil_r.
  - intros fuel w argv len prot flags res Hin.
    pose proof (main_mmap_lens fuel w argv) as H.
    rewrite Forall_forall in H. exact (H _ Hin).
Qed.

Lemma parse_size_zero_sentinel_witness :
  main 0 sample_world ["prog"; "-"; "4k"]
  = ([Print Stderr (MsgInvalidSizeValue "-")], Return 1)
  /\ 0 < 8192 <= SIZE_MAX.
Proof.
  split.
  - apply (proj1 (proj2 parse_size_zero_sentinel) 0%nat sample_world
             "prog" "-" "4k"). reflexivity.
  - apply (proj1 (proj2 (proj2 parse_size_zero_sentinel)) 4%nat sample_world
             ["prog"; "8K"; "4k"] 8192 3 34 (MapOk (2 ^ 30))).
    vm_compute. tauto.
Defined.

End Specification.

(* ================================================================== *)
(** * Further properties of the code *)

Section Probes.

Lemma prefix_app (p s : string) :
  prefix p s = true <-> exists b, s = p ++ b.
Proof.
  revert s. induction p as [|c p IH]; intros s.
  - split; [intros _; now exists s|intros _; destruct s; reflexivity].
  - destruct s as [|d s]; simpl.
    + split; [discriminate|intros [b H]; discriminate].
    + destruct (ascii_dec c d) as [->|Hne].
      * rewrite IH. split; intros [b H]; exists b; [now rewrite H|now inversion H].
      * split; [discriminate|intros [b H]; inversion H; congruence].
Qed.

Lemma strstr_spec (hay needle : string) :
  strstr hay needle = true <-> substring_of needle hay.
Proof.
  unfold substring_of. induction hay as [|c hay IH].
  - cbn [strstr]. rewrite orb_false_r, prefix_app. split.
    + intros [b H]. now exists EmptyString, b.
    + intros (a & b & H). destruct a as [|x a]; [now exists b|discriminate].
  - cbn [strstr]. rewrite orb_true_iff, prefix_app, IH. split.
    + intros [[b H]|(a & b & H)].
      * now exists EmptyString, b.
      * exists (String c a), b. simpl. now rewrite H.
    + intros (a & b & H). destruct a as [|x a].
      * left. now exists b.
      * right. exists a, b. simpl in H. now inversion H.
Qed.

Lemma vmpte_scan_skip (pre rest : list string) :
  no_vmpte_line pre = true ->
  vmpte_scan (pre ++ rest)%list = vmpte_scan rest.
Proof.
  unfold no_vmpte_line. induction pre as [|l pre IH]; [reflexivity|].
  cbn [forallb app vmpte_scan]. intros H. apply andb_prop in H.
  destruct H as [Hl Hp]. destruct (prefix "VmPTE:" l); [discriminate|].
  now apply IH.
Qed.

Lemma span_space_app (ws t : string) :
  all_space ws = true ->
  span_space (ws ++ t) = (length ws + span_space t)%nat.
Proof.
  induction ws as [|c ws IH]; [reflexivity|]. cbn [all_space].
  intros H. apply andb_prop in H. destruct H as [Hc Hw].
  simpl. rewrite Hc. now rewrite IH.
Qed.

Lemma drop_app_length (ws t : string) (k : nat) :
  drop (length ws + k) (ws ++ t) = drop k t.
Proof. induction ws as [|c ws IH]; [reflexivity|exact IH]. Qed.

Lemma span_space_digit (t : string) :
  starts_with_digit t = true -> span_space t = 0%nat.
Proof.
  destruct t as [|c t]; [discriminate|]. simpl. intros D.
  now rewrite (isdigit_not_space c D).
Qed.

Lemma starts_with_digit_app (ds rest : string) :
  all_digits ds = true -> ds <> EmptyString ->
  starts_with_digit (ds ++ rest) = true.
Proof.
  destruct ds as [|c ds]; [congruence|]. simpl. intros H _.
  apply andb_prop in H. tauto.
Qed.

(** [%ld] on white space, digits and a tail that is no digit. *)
Lemma sscanf_ld_value (ws ds rest : string) :
  all_space ws = true -> all_digits ds = true -> ds <> EmptyString ->
  starts_with_digit rest = false -> decimal_value ds <= LONG_MAX ->
  sscanf_ld (ws ++ ds ++ rest) = Some (decimal_value ds).
Proof.
  intros Hw Hd Hne Hr Hmax. unfold sscanf_ld.
  pose proof (starts_with_digit_app ds rest Hd Hne) as Hs.
  rewrite (span_space_app ws _ Hw), (span_space_digit _ Hs).
  rewrite drop_app_length. cbn [drop].
  destruct ds as [|c r]; [congruence|].
  pose proof Hd as Hd'. simpl in Hd'. apply andb_prop in Hd'.
  simpl append at 1. rewrite (isdigit_no_sign c _ (proj1 Hd')). cbn [drop].
  change (String c (r ++ rest)) with (String c r ++ rest).
  rewrite (scan_digits_value _ _ 0 Hd Hr). cbn [length].
  rewrite Z.mul_0_l, Z.add_0_l.
  pose proof (decimal_value_nonneg _ Hd).
  f_equal. unfold LONG_MIN, LONG_MAX in *. lia.
Qed.

(** [%ld] converts nothing when no digit follows the white space and
    the sign. *)
Lemma sscanf_ld_none (s : string) :
  starts_with_digit (strip_sign (skip_spaces s)) = false ->
  sscanf_ld s = None.
Proof.
  unfold sscanf_ld. rewrite span_space_skip.
  rewrite <- read_sign_strip.
  destruct (read_sign (skip_spaces s)) as [neg sl]. cbn [snd].
  rewrite (scan_digits_start _ 0).
  destruct (scan_digits (drop sl (skip_spaces s)) 0) as [nd v]. cbn [fst].
  destruct nd; [reflexivity|discriminate].
Qed.

(** X1.  [get_vmpte_kb] returns -1 when the status file cannot be
    opened, and when no line of it begins with "VmPTE:". *)
Theorem get_vmpte_kb_missing :
  get_vmpte_kb None = -1
  /\ forall lines,
      no_vmpte_line lines = true -> get_vmpte_kb (Some lines) = -1.
Proof.
  split; [reflexivity|]. intros lines H. cbn [get_vmpte_kb].
  rewrite <- (app_nil_r lines). now rewrite vmpte_scan_skip.
Qed.

Lemma get_vmpte_kb_missing_witness :
  get_vmpte_kb (Some ["Name:   estimator"; "VmRSS:      1024 kB"]) = -1.
Proof. apply (proj2 get_vmpte_kb_missing). reflexivity. Defined.

Lemma prefix_drop (p b : string) : drop (length p) (p ++ b) = b.
Proof.
  rewrite <- (Nat.add_0_r (length p)). now rewrite drop_app_length.
Qed.

(** X2.  Only the first line that begins with "VmPTE:" counts: the
    result is that of this line alone, whatever comes before or after
    it; when no number follows the key on that line the result is -1,
    even if a later line is well formed. *)
Theorem get_vmpte_kb_first_line :
  forall pre line post,
    no_vmpte_line pre = true -> prefix "VmPTE:" line = true ->
    get_vmpte_kb (Some (pre ++ line :: post)%list) = get_vmpte_kb (Some [line])
    /\ (starts_with_digit (strip_sign (skip_spaces (drop 6 line))) = false ->
        get_vmpte_kb (Some (pre ++ line :: post)%list) = -1).
Proof.
  intros pre line post Hpre Hline. cbn [get_vmpte_kb].
  rewrite (vmpte_scan_skip pre _ Hpre). cbn [vmpte_scan]. rewrite Hline.
  split; [reflexivity|]. intros Hnum. now rewrite (sscanf_ld_none _ Hnum).
Qed.

Lemma get_vmpte_kb_first_line_witness :
  get_vmpte_kb (Some ["Name:   estimator"; "VmPTE:  n/a"; "VmPTE:  44 kB"])
  = -1.
Proof.
  apply (proj2 (get_vmpte_kb_first_line ["Name:   estimator"] "VmPTE:  n/a"
                  ["VmPTE:  44 kB"] eq_refl eq_refl)).
  reflexivity.
Defined.

(** X3.  On a line made of "VmPTE:", white space, decimal digits and a
    tail that starts with no digit (as the kernel writes it, "kB"),
    [get_vmpte_kb] returns the number the digits denote, provided it
    fits in a [long]. *)
Theorem get_vmpte_kb_value :
  forall pre ws ds rest post,
    no_vmpte_line pre = true ->
    all_space ws = true -> all_digits ds = true -> ds <> EmptyString ->
    starts_with_digit rest = false -> decimal_value ds <= LONG_MAX ->
    get_vmpte_kb (Some (pre ++ ("VmPTE:" ++ ws ++ ds ++ rest)%string :: post)%list)
    = decimal_value ds.
Proof.
  intros pre ws ds rest post Hpre Hw Hd Hne Hr Hmax. cbn [get_vmpte_kb].
  rewrite (vmpte_scan_skip pre _ Hpre). cbn [vmpte_scan].
  assert (Hp : prefix "VmPTE:" ("VmPTE:" ++ ws ++ ds ++ rest) = true)
    by (apply prefix_app; eauto).
  rewrite Hp.
  change 6%nat with (length "VmPTE:"). rewrite prefix_drop.
  now rewrite sscanf_ld_value.
Qed.

Lemma get_vmpte_kb_value_witness :
  get_vmpte_kb (Some ["Name:   estimator"; "VmPTE:        44 kB"; "Threads: 1"])
  = 44.
Proof.
  apply (get_vmpte_kb_value ["Name:   estimator"] "        " "44" " kB"
           ["Threads: 1"]); try reflexivity.
  - discriminate.
  - vm_compute. discriminate.
Defined.

Lemma no_token_strstr (line : string) :
  no_thp_token line <->
  strstr line "[always]" = false /\ strstr line "[madvise]" = false
  /\ strstr line "[never]" = false.
Proof.
  unfold no_thp_token, thp_tokens. split.
  - intros H. repeat split; apply not_true_is_false; rewrite strstr_spec;
      apply H; simpl; auto.
  - intros (H1 & H2 & H3) tok [<-|[<-|[<-|[]]]]; rewrite <- strstr_spec;
      congruence.
Qed.

Lemma thp_scan_skip (pre rest : list string) :
  Forall no_thp_token pre -> thp_scan (pre ++ rest)%list = thp_scan rest.
Proof.
  induction 1 as [|l pre Hl _ IH]; [reflexivity|].
  apply no_token_strstr in Hl. destruct Hl as (H1 & H2 & H3).
  cbn [app thp_scan]. now rewrite H1, H2, H3.
Qed.

(** X4.  [check_thp_status] answers [THP_UNKNOWN] exactly when the
    file cannot be opened or no line of it contains any of "[always]",
    "[madvise]", "[never]". *)
Theorem check_thp_status_unknown :
  forall file,
    check_thp_status file = THP_UNKNOWN
    <-> (file = None \/ exists lines, file = Some lines
                                      /\ Forall no_thp_token lines).
Proof.
  intros [lines|]; cbn [check_thp_status].
  2:{ split; auto. }
  split.
  - intros H. right. exists lines. split; [reflexivity|].
    induction lines as [|l lines IH]; [constructor|].
    cbn [thp_scan] in H.
    destruct (strstr l "[always]") eqn:H1; [discriminate|].
    destruct (strstr l "[madvise]") eqn:H2; [discriminate|].
    destruct (strstr l "[never]") eqn:H3; [discriminate|].
    constructor; [now apply no_token_strstr|now apply IH].
  - intros [H|(lines' & E & H)]; [discriminate|].
    inversion E; subst lines'. rewrite <- (app_nil_r lines).
    now rewrite thp_scan_skip.
Qed.

Lemma check_thp_status_unknown_witness :
  Some ["always madvise never"] = None
  \/ exists lines, Some ["always madvise never"] = Some lines
                   /\ Forall no_thp_token lines.
Proof.
  apply (proj1 (check_thp_status_unknown (Some ["always madvise never"]))).
  reflexivity.
Defined.

(** X5.  The first line that contains a bracketed token decides, and
    within that line "[always]" wins over "[madvise]", which wins over
    "[never]"; later lines are never looked at. *)
Theorem check_thp_status_first_token :
  forall pre line post,
    Forall no_thp_token pre ->
    (substring_of "[always]" line ->
     check_thp_status (Some (pre ++ line :: post)%list) = THP_ALWAYS)
    /\ (~ substring_of "[always]" line -> substring_of "[madvise]" line ->
        check_thp_status (Some (pre ++ line :: post)%list) = THP_MADVISE)
    /\ (~ substring_of "[always]" line -> ~ substring_of "[madvise]" line ->
        substring_of "[never]" line ->
        check_thp_status (Some (pre ++ line :: post)%list) = THP_NEVER).
Proof.
  intros pre line post Hpre. cbn [check_thp_status].
  rewrite (thp_scan_skip pre _ Hpre). cbn [thp_scan].
  rewrite <- !strstr_spec.
  destruct (strstr line "[always]"), (strstr line "[madvise]"),
    (strstr line "[never]"); repeat split; intros; congruence.
Qed.

Lemma check_thp_status_first_token_witness :
  check_thp_status (Some ["always [madvise] never"; "[always]"]) = THP_MADVISE.
Proof.
  apply (proj1 (proj2 (check_thp_status_first_token []
                         "always [madvise] never" ["[always]"]
                         (Forall_nil _)))).
  - rewrite <- strstr_spec. vm_compute. discriminate.
  - exists "always ", " never". reflexivity.
Defined.

End Probes.

Section ParseSizeEdges.

Lemma strtoull_overflow (e : Z) (ds rest : string) :
  all_digits ds = true -> ds <> EmptyString ->
  starts_with_digit rest = false ->
  ULLONG_MAX < decimal_value ds ->
  strtoull e (ds ++ rest)
  = {| st_val := ULLONG_MAX; st_end := length ds; st_errno := ERANGE |}.
Proof.
  intros Hd Hne Hr Hmax.
  pose proof (starts_with_digit_app ds rest Hd Hne) as Hs.
  unfold strtoull. rewrite (span_space_digit _ Hs). cbn [drop].
  destruct ds as [|c r]; [congruence|].
  pose proof Hd as Hd'. simpl in Hd'. apply andb_prop in Hd'.
  simpl append at 1. rewrite (isdigit_no_sign c _ (proj1 Hd')). cbn [drop].
  change (String c (r ++ rest)) with (String c r ++ rest).
  rewrite (scan_digits_value _ _ 0 Hd Hr). cbn [length].
  rewrite Z.mul_0_l, Z.add_0_l.
  apply Z.ltb_lt in Hmax. rewrite Hmax. reflexivity.
Qed.

(** X6.  A digit string whose value exceeds [ULLONG_MAX] is reported
    as too large whatever follows the digits: the range check comes
    before the suffix is looked at. *)
Theorem parse_size_too_large :
  forall e ds rest,
    all_digits ds = true -> ds <> EmptyString ->
    starts_with_digit rest = false ->
    ULLONG_MAX < decimal_value ds ->
    parse_size e (ds ++ rest)
    = ([Print Stderr (MsgSizeTooLarge (ds ++ rest))], 0).
Proof.
  intros e ds rest Hd Hne Hr Hmax. unfold parse_size.
  rewrite (strtoull_overflow e ds rest Hd Hne Hr Hmax).
  cbn [st_val st_end st_errno].
  destruct ds as [|c r]; [congruence|]. reflexivity.
Qed.

Lemma parse_size_too_large_witness :
  parse_size errno_at_startup "18446744073709551616X"
  = ([Print Stderr (MsgSizeTooLarge "18446744073709551616X")], 0).
Proof.
  apply (parse_size_too_large errno_at_startup "18446744073709551616" "X");
    try reflexivity.
  discriminate.
Defined.

(** X7.  A digit string that fits in 64 bits but whose product with
    the suffix multiplier does not is rejected with the overflow
    diagnostic and the result 0. *)
Theorem parse_size_overflow :
  forall e ds c p,
    e <> ERANGE ->
    all_digits ds = true -> ds <> EmptyString ->
    suffix_power c = Some p ->
    decimal_value ds <= ULLONG_MAX ->
    ULLONG_MAX < decimal_value ds * 1024 ^ p ->
    parse_size e (ds ++ String c EmptyString)
    = ([Print Stderr (MsgOverflow (ds ++ String c EmptyString))], 0).
Proof.
  intros e ds c p He Hd Hne Hp Hfit Hov.
  pose proof (decimal_value_nonneg ds Hd) as Hv.
  pose proof (suffix_power_range c p Hp) as Hpr.
  assert (Hpos : 0 < 1024 ^ p) by (apply Z.pow_pos_nonneg; lia).
  unfold parse_size.
  rewrite (strtoull_digits e ds (String c EmptyString) Hd Hne).
  2:{ simpl. exact (suffix_not_digit c p Hp). }
  2:{ exact Hfit. }
  cbn [st_val st_end st_errno].
  destruct ds as [|d r]; [congruence|]. cbn [length Nat.eqb orb].
  assert (Hv0 : (decimal_value (String d r) =? 0) = false)
    by (apply Z.eqb_neq; unfold ULLONG_MAX in *; nia).
  rewrite Hv0. cbn [andb].
  apply Z.eqb_neq in He. rewrite He, andb_false_r.
  change (S (length r)) with (length (String d r)).
  rewrite <- (Nat.add_0_r (length (String d r))) at 1.
  rewrite get_append_end. cbn [get].
  rewrite suffix_multiplier_power, Hp. cbn [option_map].
  replace (S (length (String d r))) with (length (String d r) + 1)%nat by lia.
  rewrite get_append_end. cbn [get].
  unfold apply_multiplier.
  assert (E : (ULLONG_MAX / 1024 ^ p <? decimal_value (String d r)) = true).
  { apply Z.ltb_lt. apply Z.div_lt_upper_bound; lia. }
  rewrite E. reflexivity.
Qed.

Lemma parse_size_overflow_witness :
  parse_size errno_at_startup "17179869184G"
  = ([Print Stderr (MsgOverflow "17179869184G")], 0).
Proof.
  apply (parse_size_overflow errno_at_startup "17179869184" "G"%char 3);
    try reflexivity; vm_compute; congruence.
Defined.

Lemma strtoull_negative (e : Z) (ds rest : string) :
  all_digits ds = true -> ds <> EmptyString ->
  starts_with_digit rest = false ->
  decimal_value ds <= ULLONG_MAX ->
  strtoull e (String "-" (ds ++ rest))
  = {| st_val := (- decimal_value ds) mod 2 ^ 64;
       st_end := S (length ds); st_errno := e |}.
Proof.
  intros Hd Hne Hr Hmax. unfold strtoull.
  cbn [span_space isspace]. change (isspace "-") with false. cbn [drop read_sign].
  rewrite (scan_digits_value _ _ 0 Hd Hr).
  rewrite Z.mul_0_l, Z.add_0_l.
  destruct ds as [|c r]; [congruence|]. cbn [length].
  apply Z.ltb_ge in Hmax. rewrite Hmax. reflexivity.
Qed.

Lemma append_empty (s : string) : s ++ "" = s.
Proof. induction s as [|c r IH]; [reflexivity|]. simpl. now rewrite IH. Qed.

(** X8.  A minus sign is read by [strtoull], which negates in the
    unsigned type: "-v" without a suffix is accepted as [2 ^ 64 - v];
    with a suffix letter and [v <= 2 ^ 64 - 2 ^ 54] it is rejected by
    the overflow check. *)
Theorem parse_size_minus_sign :
  (forall e ds,
      e <> ERANGE ->
      all_digits ds = true -> ds <> EmptyString ->
      0 < decimal_value ds <= ULLONG_MAX ->
      parse_size e (String "-" ds) = ([], 2 ^ 64 - decimal_value ds))
  /\ (forall e ds c p,
         e <> ERANGE ->
         all_digits ds = true -> ds <> EmptyString ->
         suffix_power c = Some p ->
         0 < decimal_value ds <= 2 ^ 64 - 2 ^ 54 ->
         parse_size e (String "-" (ds ++ String c EmptyString))
         = ([Print Stderr
               (MsgOverflow (String "-" (ds ++ String c EmptyString)))], 0)).
Proof.
  split.
  - intros e ds He Hd Hne Hv. unfold parse_size.
    pose proof (strtoull_negative e ds EmptyString Hd Hne eq_refl (proj2 Hv))
      as E.
    rewrite append_empty in E. rewrite E. cbn [st_val st_end st_errno].
    assert (Hm : (- decimal_value ds) mod 2 ^ 64 = 2 ^ 64 - decimal_value ds).
    { symmetry. apply Z.mod_unique with (q := -1);
        unfold ULLONG_MAX in *; lia. }
    rewrite Hm. cbn [Nat.eqb orb].
    assert (H0 : (2 ^ 64 - decimal_value ds =? 0) = false)
      by (apply Z.eqb_neq; unfold ULLONG_MAX in *; lia).
    rewrite H0. cbn [andb].
    apply Z.eqb_neq in He. rewrite He, andb_false_r.
    pose proof (get_append_end (String "-" ds) EmptyString 0) as G.
    rewrite Nat.add_0_r, append_empty in G. cbn [length] in G.
    rewrite G. cbn [get].
    rewrite <- (Z.mul_1_r (2 ^ 64 - decimal_value ds)) at 2.
    apply apply_multiplier_exact;
      unfold SIZE_MAX, SIZE_MOD, SIZE_WIDTH, ULLONG_MAX in *; lia.
  - intros e ds c p He Hd Hne Hp Hv. unfold parse_size.
    pose proof (suffix_power_range c p Hp) as Hpr.
    rewrite (strtoull_negative e ds (String c EmptyString) Hd Hne).
    2:{ simpl. exact (suffix_not_digit c p Hp). }
    2:{ unfold ULLONG_MAX. lia. }
    cbn [st_val st_end st_errno].
    assert (Hm : (- decimal_value ds) mod 2 ^ 64 = 2 ^ 64 - decimal_value ds).
    { symmetry. apply Z.mod_unique with (q := -1); lia. }
    rewrite Hm. cbn [Nat.eqb orb].
    assert (H0 : (2 ^ 64 - decimal_value ds =? 0) = false)
      by (apply Z.eqb_neq; lia).
    rewrite H0. cbn [andb].
    apply Z.eqb_neq in He. rewrite He, andb_false_r.
    change (S (length ds)) with (length (String "-" ds)).
    change (String "-" (ds ++ String c "")) with (String "-" ds ++ String c "").
    rewrite <- (Nat.add_0_r (length (String "-" ds))) at 1.
    rewrite get_append_end. cbn [get].
    rewrite suffix_multiplier_power, Hp. cbn [option_map].
    replace (S (length (String "-" ds)))
      with (length (String "-" ds) + 1)%nat by lia.
    rewrite get_append_end. cbn [get].
    unfold apply_multiplier.
    assert (E : (ULLONG_MAX / 1024 ^ p <? 2 ^ 64 - decimal_value ds) = true).
    { apply Z.ltb_lt. apply Z.div_lt_upper_bound.
      - apply Z.pow_pos_nonneg; lia.
      - assert (1024 ^ 1 <= 1024 ^ p) by (apply Z.pow_le_mono_r; lia).
        change (1024 ^ 1) with 1024 in *. unfold ULLONG_MAX.
        change (2 ^ 64) with 18446744073709551616 in *.
        change (2 ^ 54) with 18014398509481984 in *. nia. }
    rewrite E. reflexivity.
Qed.

Lemma parse_size_minus_sign_witness :
  parse_size errno_at_startup "-1" = ([], 2 ^ 64 - 1)
  /\ parse_size errno_at_startup "-1K"
     = ([Print Stderr (MsgOverflow "-1K")], 0).
Proof.
  split.
  - apply (proj1 parse_size_minus_sign errno_at_startup "1");
      try reflexivity; vm_compute; try split; congruence.
  - apply (proj2 parse_size_minus_sign errno_at_startup "1" "K"%char 1);
      try reflexivity; vm_compute; try split; congruence.
Defined.

Lemma snd_apply_multiplier (s s' : string) (v m : Z) :
  snd (apply_multiplier s v m) = snd (apply_multiplier s' v m).
Proof.
  unfold apply_multiplier. destruct (_ <? _); [reflexivity|].
  cbv zeta. destruct (_ && _); reflexivity.
Qed.

(** A prefix that [strtoull] only skips does not change the value
    [parse_size] returns. *)
Lemma parse_size_skipped_prefix (e : Z) (p s : string) :
  strtoull e (p ++ s) = shift_end (length p) (strtoull e s) ->
  snd (parse_size e (p ++ s)) = snd (parse_size e s).
Proof.
  intros H. unfold parse_size. rewrite H.
  destruct (strtoull e s) as [v en er]. cbn [shift_end st_val st_end st_errno].
  destruct en as [|en]; [reflexivity|].
  replace (length p + S en =? 0)%nat with false
    by (symmetry; apply Nat.eqb_neq; lia).
  cbn [Nat.eqb orb].
  destruct (_ && _); [reflexivity|].
  destruct (_ && _); [reflexivity|].
  rewrite (get_append_end p s (S en)).
  replace (S (length p + S en)) with (length p + S (S en))%nat by lia.
  rewrite (get_append_end p s (S (S en))).
  destruct (get (S en) s) as [c|]; [|apply snd_apply_multiplier].
  destruct (suffix_multiplier c); [|reflexivity].
  destruct (get (S (S en)) s); [reflexivity|apply snd_apply_multiplier].
Qed.

Lemma strtoull_leading_space (e : Z) (ws s : string) :
  all_space ws = true ->
  strtoull e (ws ++ s) = shift_end (length ws) (strtoull e s).
Proof.
  intros Hw. unfold strtoull.
  rewrite (span_space_app ws s Hw), drop_app_length.
  destruct (read_sign (drop (span_space s) s)) as [neg sl].
  destruct (scan_digits (drop sl (drop (span_space s) s)) 0) as [nd v].
  destruct nd as [|nd]; [reflexivity|].
  destruct (ULLONG_MAX <? v); unfold shift_end; cbn [st_val st_end st_errno];
    (replace (span_space s + sl + S nd)%nat
       with (S (span_space s + sl + nd)) by lia);
    f_equal; lia.
Qed.

Lemma strtoull_plus_sign (e : Z) (s : string) :
  starts_with_digit s = true ->
  strtoull e (String "+" s) = shift_end 1 (strtoull e s).
Proof.
  intros Hs. unfold strtoull.
  rewrite (span_space_digit s Hs).
  cbn [span_space]. change (isspace "+") with false. cbn [drop read_sign].
  destruct s as [|c r]; [discriminate|]. simpl in Hs.
  rewrite (isdigit_no_sign c r Hs). cbn [drop].
  destruct (scan_digits (String c r) 0) as [nd v].
  destruct nd as [|nd]; [reflexivity|].
  destruct (ULLONG_MAX <? v); reflexivity.
Qed.

(** X9.  Leading white space, and a plus sign before the first digit,
    do not change the value [parse_size] returns. *)
Theorem parse_size_ignores_space_and_plus :
  (forall e ws s,
      all_space ws = true ->
      snd (parse_size e (ws ++ s)) = snd (parse_size e s))
  /\ (forall e s,
         starts_with_digit s = true ->
         snd (parse_size e (String "+" s)) = snd (parse_size e s)).
Proof.
  split.
  - intros e ws s Hw. apply parse_size_skipped_prefix.
    now apply strtoull_leading_space.
  - intros e s Hs.
    apply (parse_size_skipped_prefix e (String "+" EmptyString) s).
    now apply strtoull_plus_sign.
Qed.

Lemma parse_size_ignores_space_and_plus_witness :
  snd (parse_size errno_at_startup "  8K")
  = snd (parse_size errno_at_startup "8K")
  /\ snd (parse_size errno_at_startup "+8K")
     = snd (parse_size errno_at_startup "8K").
Proof.
  split.
  - apply (proj1 parse_size_ignores_space_and_plus errno_at_startup "  " "8K").
    reflexivity.
  - apply (proj2 parse_size_ignores_space_and_plus errno_at_startup "8K").
    reflexivity.
Defined.

Lemma strtoull_errno (e : Z) (s : string) :
  st_errno (strtoull e s) = e
  \/ (st_errno (strtoull e s) = ERANGE /\ st_val (strtoull e s) = ULLONG_MAX).
Proof.
  unfold strtoull.
  destruct (read_sign _) as [neg sl]. destruct (scan_digits _ _) as [nd v].
  destruct nd; [now left|]. destruct (ULLONG_MAX <? v); [right|left]; auto.
Qed.

Lemma apply_multiplier_value_cases (s : string) (v m : Z) :
  0 <= v <= ULLONG_MAX -> 0 < m <= SIZE_MAX ->
  (exists d, apply_multiplier s v m = ([Print Stderr d], 0)
             /\ is_value_diagnostic d = true)
  \/ (exists n, apply_multiplier s v m = ([], n)).
Proof.
  intros Hv Hm. unfold apply_multiplier.
  destruct (_ <? _); [left; eexists; split; reflexivity|].
  cbv zeta. destruct (_ && _); [left; eexists; split; reflexivity|].
  right. eauto.
Qed.

(** X10.  A string of the shape white space, optional sign, digits,
    optional suffix letter is never rejected for its syntax: called as
    [main] calls it, [parse_size] accepts it or reports its value (too
    large, overflow, or zero). *)
Theorem parse_size_grammar_exact :
  forall s,
    lenient_size_grammar s = true ->
    (exists n, parse_size errno_at_startup s = ([], n))
    \/ (exists d, parse_size errno_at_startup s = ([Print Stderr d], 0)
                  /\ is_value_diagnostic d = true).
Proof.
  intros s. unfold lenient_size_grammar, size_grammar, parse_size.
  pose proof (strtoull_end errno_at_startup s) as He. cbv zeta in He.
  pose proof (get_after_digits s 0) as G0.
  pose proof (get_after_digits s 1) as G1. cbv zeta in G0, G1.
  pose proof (strtoull_range errno_at_startup s) as Hr.
  pose proof (strtoull_errno errno_at_startup s) as Herr.
  rewrite (scan_digits_start _ 0).
  set (u := strip_sign (skip_spaces s)) in *.
  set (sl := snd (read_sign (skip_spaces s))) in *.
  destruct (fst (scan_digits u 0)) as [|nd] eqn:Hnd; [discriminate|].
  cbn [Nat.eqb negb andb]. rewrite He. intros Hg.
  rewrite Nat.add_0_r in G0.
  replace (span_space s + sl + S nd + 1)%nat
    with (S (span_space s + sl + S nd)) in G1 by lia.
  rewrite G0, G1.
  replace (span_space s + sl + S nd =? 0)%nat with false
    by (symmetry; apply Nat.eqb_neq; lia).
  cbn [orb].
  assert (H1 : (st_val (strtoull errno_at_startup s) =? 0)
               && negb (st_errno (strtoull errno_at_startup s) =? 0) = false).
  { destruct Herr as [E|[E1 E2]].
    - rewrite E. apply andb_false_r.
    - rewrite E2. reflexivity. }
  rewrite H1. clear H1.
  destruct ((st_val (strtoull errno_at_startup s) =? ULLONG_MAX)
            && (st_errno (strtoull errno_at_startup s) =? ERANGE));
    [right; eexists; split; reflexivity|].
  destruct (skip_digits u) as [|c r].
  - cbn [get].
    destruct (apply_multiplier_value_cases s _ 1 Hr
                ltac:(vm_compute; split; congruence)) as [H|H]; auto.
  - cbn [get]. unfold is_suffix_letter in Hg.
    rewrite suffix_multiplier_power.
    destruct r as [|c' r']; [|discriminate].
    destruct (suffix_power c) as [p|] eqn:Hp; [|discriminate].
    cbn [option_map get].
    destruct (apply_multiplier_value_cases s
                (st_val (strtoull errno_at_startup s)) (1024 ^ p) Hr) as [H|H];
      auto.
    pose proof (suffix_power_range c p Hp).
    assert (Hp3 : p = 1 \/ p = 2 \/ p = 3) by lia.
    destruct Hp3 as [E|[E|E]]; subst p; vm_compute; split; congruence.
Qed.

Lemma parse_size_grammar_exact_witness :
  (exists n, parse_size errno_at_startup " +0K" = ([], n))
  \/ (exists d, parse_size errno_at_startup " +0K" = ([Print Stderr d], 0)
                /\ is_value_diagnostic d = true).
Proof. apply (parse_size_grammar_exact " +0K"). reflexivity. Defined.

End ParseSizeEdges.

Section TouchAndOverhead.

(** With a stride that divides both [2 ^ 64] and is a multiple of 256,
    the index stays a multiple of the stride through the wrap-around and
    the byte written is always 0. *)
Lemma touch_loop_strides (addr map_size step : Z) (fuel : nat) :
  0 < step -> (step | SIZE_MOD) -> (256 | step) ->
  forall i c, 0 <= i -> (step | i) ->
    Forall (fun e => exists k, 0 <= k /\ e = Touch addr (k * step) 0
                               /\ k * step < map_size)
           (fst (touch_loop fuel addr map_size step i c)).
Proof.
  intros Hs Hd H256.
  induction fuel as [|fuel IH]; intros i c Hi Hdiv; [constructor|].
  cbn [touch_loop]. destruct (i <? map_size) eqn:E; [|constructor].
  apply Z.ltb_lt in E.
  assert (Hnext : (step | wrap (i + step))).
  { unfold wrap. rewrite Z.mod_eq by (unfold SIZE_MOD, SIZE_WIDTH; lia).
    apply Z.divide_sub_r.
    - apply Z.divide_add_r; [exact Hdiv|apply Z.divide_refl].
    - apply Z.divide_mul_l. exact Hd. }
  specialize (IH (wrap (i + step)) (wrap (c + 1))
                 (proj1 (wrap_range _)) Hnext).
  destruct (touch_loop fuel addr map_size step
              (wrap (i + step)) (wrap (c + 1))) as [t o].
  cbn in *. constructor; [|exact IH].
  destruct Hdiv as [k Hk]. exists k. subst i.
  assert (Hmod : (k * step) mod 256 = 0).
  { apply Z.mod_divide; [lia|]. apply Z.divide_mul_r. exact H256. }
  rewrite Hmod. repeat split; [nia|exact E].
Qed.

(** X11.  With the stride of any mode the touch loop writes only at
    multiples of the stride below the mapped size, and the byte
    [i % 256] it writes is always 0, for whatever fuel and size. *)
Theorem touch_bytes_zero :
  forall arg t pol,
    select_mode arg = (t, Continue pol) ->
    forall fuel addr map_size,
      Forall (fun e => exists k, 0 <= k
                                 /\ e = Touch addr (k * touch_step_size pol) 0
                                 /\ k * touch_step_size pol < map_size)
             (fst (touch_loop fuel addr map_size (touch_step_size pol) 0 0)).
Proof.
  intros arg t pol Hsel fuel addr map_size.
  rewrite select_mode_table in Hsel.
  destruct (mode_of_token arg) as [m|]; [|discriminate].
  inversion Hsel; subst t pol. cbn [touch_step_size policy_of_mode].
  apply touch_loop_strides; try lia.
  - apply stride_pos.
  - destruct m; [exists (2 ^ 52)|exists (2 ^ 52)|exists (2 ^ 43)|exists (2 ^ 34)];
      reflexivity.
  - destruct m; [exists 16|exists 16|exists 8192|exists 4194304]; reflexivity.
  - exists 0. reflexivity.
Qed.

Lemma touch_bytes_zero_witness :
  Forall (fun e => exists k, 0 <= k
                             /\ e = Touch 0 (k * touch_step_size
                                                   (policy_of_mode MODE_2M)) 0
                             /\ k * touch_step_size (policy_of_mode MODE_2M)
                                < 5 * 2 ^ 20)
         (fst (touch_loop 8 0 (5 * 2 ^ 20)
                 (touch_step_size (policy_of_mode MODE_2M)) 0 0)).
Proof.
  apply (touch_bytes_zero "2m" [Print Stdout MsgMode2M]
           (policy_of_mode MODE_2M)).
  reflexivity.
Defined.

Lemma ceil_div_antitone (t p q : Z) :
  0 <= t -> 0 < p <= q -> ceil_div t q <= ceil_div t p.
Proof.
  intros Ht Hpq. apply ceil_div_least; [lia|].
  pose proof (ceil_div_bounds t p ltac:(lia)).
  pose proof (ceil_div_nonneg t p ltac:(lia) Ht). nia.
Qed.

Lemma ceil_div_exact (t p : Z) :
  0 < p -> t mod p = 0 -> ceil_div t p = t / p.
Proof. intros Hp Hm. unfold ceil_div. now rewrite Hm. Qed.

Lemma calculate_overhead_pages (t p : Z) :
  0 <= t -> 4096 <= p -> t + p - 1 <= SIZE_MAX ->
  calculate_overhead t p = ceil_div t p * 8.
Proof.
  intros Ht Hp Hs. apply calculate_overhead_exact; try lia.
  pose proof (ceil_div_bounds t p ltac:(lia)).
  unfold PTE_SIZE, SIZE_MAX, SIZE_MOD, SIZE_WIDTH in *.
  change (2 ^ 64) with 18446744073709551616 in *. nia.
Qed.

(** X12.  In the table of theoretical overheads a larger page never
    costs more: the 1 GiB figure is at most the 2 MiB figure, which is
    at most the 4 KiB figure; for a size that is a multiple of the
    larger page the smaller page costs exactly 512 times as much. *)
Theorem theoretical_overhead_order :
  forall map_size,
    0 <= map_size -> map_size + PAGE_SIZE_1G - 1 <= SIZE_MAX ->
    calculate_overhead map_size PAGE_SIZE_1G
    <= calculate_overhead map_size PAGE_SIZE_2M
    <= calculate_overhead map_size PAGE_SIZE_4K
    /\ (map_size mod PAGE_SIZE_2M = 0 ->
        calculate_overhead map_size PAGE_SIZE_4K
        = 512 * calculate_overhead map_size PAGE_SIZE_2M)
    /\ (map_size mod PAGE_SIZE_1G = 0 ->
        calculate_overhead map_size PAGE_SIZE_2M
        = 512 * calculate_overhead map_size PAGE_SIZE_1G).
Proof.
  intros t Ht Hs.
  change PAGE_SIZE_1G with 1073741824 in *.
  change PAGE_SIZE_2M with 2097152 in *.
  change PAGE_SIZE_4K with 4096 in *.
  rewrite !calculate_overhead_pages by lia.
  pose proof (ceil_div_antitone t 2097152 1073741824 Ht ltac:(lia)).
  pose proof (ceil_div_antitone t 4096 2097152 Ht ltac:(lia)).
  split; [lia|]. split; intros Hm.
  - assert (H4 : t mod 4096 = 0).
    { rewrite <- (Z.mod_mod_divide t 2097152 4096) by (exists 512; reflexivity).
      now rewrite Hm. }
    rewrite !ceil_div_exact by (assumption || lia).
    pose proof (Z.div_mod t 2097152 ltac:(lia)).
    pose proof (Z.div_mod t 4096 ltac:(lia)). lia.
  - assert (H2 : t mod 2097152 = 0).
    { rewrite <- (Z.mod_mod_divide t 1073741824 2097152)
        by (exists 512; reflexivity).
      now rewrite Hm. }
    rewrite !ceil_div_exact by (assumption || lia).
    pose proof (Z.div_mod t 1073741824 ltac:(lia)).
    pose proof (Z.div_mod t 2097152 ltac:(lia)). lia.
Qed.

Lemma theoretical_overhead_order_witness :
  calculate_overhead (2 ^ 30) PAGE_SIZE_1G
  <= calculate_overhead (2 ^ 30) PAGE_SIZE_2M
  <= calculate_overhead (2 ^ 30) PAGE_SIZE_4K.
Proof.
  apply (theoretical_overhead_order (2 ^ 30)); vm_compute; congruence.
Defined.

End TouchAndOverhead.

Section FullRuns.

Ltac case_cond :=
  match goal with
  | |- context [(?x mod ?y =? 0)] => destruct (x mod y =? 0) eqn:?
  | |- context [thp_eqb ?s _] => destruct s eqn:?
  | |- context [get_vmpte_kb ?f <? 0] => destruct (get_vmpte_kb f <? 0) eqn:?
  | |- context [?v <? 0] => destruct (v <? 0) eqn:?
  | |- context [w_mmap ?w ?a ?b ?c] => destruct (w_mmap w a b c) eqn:?
  | |- context [?e =? ENOMEM] => destruct (e =? ENOMEM)
  | |- context [?e =? EINVAL] => destruct (e =? EINVAL)
  | |- context [?e =? 12] => destruct (e =? 12)
  | |- context [?e =? 22] => destruct (e =? 22)
  end.

Ltac trace_mode_cases n M Hn :=
  cbn -[after_mmap]; repeat (case_cond; cbn -[after_mmap]);
  first
    [ reflexivity
    | exists n, M; eexists;
      split; [reflexivity|]; split; [exact Hn|]; split; [reflexivity|];
      split; [first [exact I | apply Z.eqb_eq; assumption]|];
      split; [eassumption|reflexivity] ].

Lemma main_trace (fuel : nat) (w : world) (argv : list string) :
  match classify w argv with
  | Some c => main fuel w argv = (fatal_trace w argv c, Return 1)
  | None =>
      exists size m addr,
        parse_size errno_at_startup (nth 1 argv "") = ([], size)
        /\ 0 < size <= SIZE_MAX
        /\ mode_of_token (nth 2 argv "") = Some m
        /\ match alignment_of_mode m with
           | Some al => size mod al = 0
           | None => True
           end
        /\ w_mmap w size (PROT_READ + PROT_WRITE) (flags_of_mode m)
           = MapOk addr
        /\ main fuel w argv
           = ((prologue m (check_thp_status (w_thp_enabled w))
                        (get_vmpte_kb (w_status_before w)) size
               ++ Mmap size (PROT_READ + PROT_WRITE) (flags_of_mode m)
                       (MapOk addr)
               :: fst (after_mmap fuel w (policy_of_mode m)
                         (check_thp_status (w_thp_enabled w))
                         (get_vmpte_kb (w_status_before w)) size addr))%list,
              snd (after_mmap fuel w (policy_of_mode m)
                     (check_thp_status (w_thp_enabled w))
                     (get_vmpte_kb (w_status_before w)) size addr))
  end.
Proof.
  unfold classify, main, fatal_trace. cbv zeta.
  destruct (Nat.eqb_spec (List.length argv) 3) as [Hlen|Hlen]; cbn [negb].
  2:{ assert (E : (Z.of_nat (List.length argv) =? 3) = false)
        by (apply Z.eqb_neq; lia).
      rewrite E. reflexivity. }
  rewrite Hlen. cbn [Z.of_nat Pos.of_succ_nat Pos.succ Z.eqb Pos.eqb negb].
  destruct (parse_size_cases errno_at_startup (nth 1 argv ""))
    as [(d & Hp & Hd)|(n & Hn & Hp)]; rewrite Hp; cbn [snd fst].
  { reflexivity. }
  assert (E0 : (n =? 0) = false) by (apply Z.eqb_neq; lia). rewrite E0.
  rewrite (select_mode_table (nth 2 argv "")).
  destruct (mode_of_token (nth 2 argv "")) as [m|]; [|reflexivity].
  set (thp := check_thp_status (w_thp_enabled w)).
  set (vb := get_vmpte_kb (w_status_before w)).
  clearbody thp vb.
  destruct m;
    [ trace_mode_cases n MODE_4K Hn | trace_mode_cases n MODE_THP Hn
    | trace_mode_cases n MODE_2M Hn | trace_mode_cases n MODE_1G Hn ].
Qed.

Lemma in_bind {A B} (m : prog A) (f : A -> prog B) (e : event) :
  In e (fst (bind m f)) ->
  In e (fst m) \/ exists a, snd m = Continue a /\ In e (fst (f a)).
Proof.
  destruct m as [t [a|c|]]; cbn; [|auto|auto].
  rewrite in_app_iff. intros [H|H]; [auto|right; eauto].
Qed.

Ltac leaf :=
  solve [ reflexivity | assumption | discriminate
        | split; [reflexivity|]; leaf
        | split; [assumption|]; leaf
        | eexists; leaf ].

Ltac pick := first [ leaf | left; leaf | right; pick ].

Ltac in_cases H :=
  repeat match type of H with
         | _ \/ _ => destruct H as [H|H]
         | False => destruct H
         end.

(** Every event after a successful [mmap], by kind. *)
Lemma after_mmap_In fuel w pol thp vb size addr e :
  In e (fst (after_mmap fuel w pol thp vb size addr)) ->
  (e = Madvise addr size MADV_NOHUGEPAGE /\ mode pol = MODE_4K)
  \/ (e = Madvise addr size MADV_HUGEPAGE /\ mode pol = MODE_THP
      /\ thp = THP_MADVISE)
  \/ (exists off, e = Touch addr off (off mod 256) /\ 0 <= off < size)
  \/ e = Getchar \/ e = ReadProcStatus \/ e = Munmap addr size
  \/ (exists fd m, e = Print fd m /\ is_thp_advisory m = false).
Proof.
  unfold after_mmap. intros H.
  apply in_bind in H. destruct H as [H|(? & _ & H)].
  { destruct (mode pol) eqn:Hm; destruct thp eqn:Ht; cbn in H;
      destruct (w_madvise w); cbn in H; in_cases H; subst e; pick. }
  apply in_bind in H. destruct H as [H|(? & _ & H)].
  { cbn in H. in_cases H; subst e; pick. }
  apply in_bind in H. destruct H as [H|(? & _ & H)].
  { destruct (touch_loop_events addr size (touch_step_size pol) fuel 0 0
                ltac:(lia)) as [F _].
    rewrite Forall_forall in F. destruct (F _ H) as (off & -> & Hoff).
    right; right; left. eauto. }
  apply in_bind in H. destruct H as [H|(? & _ & H)].
  { cbn in H. in_cases H; subst e; pick. }
  apply in_bind in H. destruct H as [H|(? & _ & H)].
  { cbn in H. in_cases H; subst e; pick. }
  apply in_bind in H. destruct H as [H|(? & _ & H)].
  { destruct (_ <? 0); cbn in H; in_cases H; subst e; pick. }
  apply in_bind in H. destruct H as [H|(? & _ & H)].
  { cbn in H. in_cases H; subst e; pick. }
  apply in_bind in H. destruct H as [H|(? & _ & H)].
  { cbn in H. in_cases H; subst e; pick. }
  apply in_bind in H. destruct H as [H|(? & _ & H)].
  { destruct (_ <=? size); cbn in H; in_cases H; subst e; pick. }
  apply in_bind in H. destruct H as [H|(? & _ & H)].
  { destruct (_ <=? size); cbn in H; in_cases H; subst e; pick. }
  apply in_bind in H. destruct H as [H|(? & _ & H)].
  { cbn in H. in_cases H; subst e; pick. }
  apply in_bind in H. destruct H as [H|(? & _ & H)].
  { cbn in H. in_cases H; subst e; pick. }
  apply in_bind in H. destruct H as [H|(? & _ & H)].
  { cbn in H. in_cases H; subst e; pick. }
  apply in_bind in H. destruct H as [H|(? & _ & H)].
  { cbn in H. in_cases H; subst e; pick. }
  apply in_bind in H. destruct H as [H|(? & _ & H)].
  { cbn in H. in_cases H; subst e; pick. }
  apply in_bind in H. destruct H as [H|(? & _ & H)].
  { destruct (w_munmap w); cbn in H; in_cases H; subst e; pick. }
  cbn in H. destruct H.
Qed.

Lemma thp_warnings_quiet (m : PageSizeMode) (thp : ThpStatus) :
  forallb is_quiet (thp_warnings m thp) = true.
Proof. destruct m, thp; reflexivity. Qed.

Lemma prologue_quiet (m : PageSizeMode) (thp : ThpStatus) (vb size : Z) :
  forallb is_quiet (prologue m thp vb size) = true.
Proof. destruct m, thp; reflexivity. Qed.

Lemma parse_diag_quiet (e : Z) (s : string) :
  forallb is_quiet (fst (parse_size e s)) = true.
Proof.
  destruct (parse_size_cases e s) as [(d & -> & _)|(n & _ & ->)]; reflexivity.
Qed.

(** X13.  In every fatal class other than the [mmap] failure the run
    returns 1 having only printed and read the two introspection files:
    it never calls [mmap], [madvise] or [munmap], never touches memory
    and never waits for input. *)
Theorem fatal_before_mmap_is_quiet :
  forall fuel w argv c,
    classify w argv = Some c -> c <> MmapFailure ->
    snd (main fuel w argv) = Return 1
    /\ forallb is_quiet (fst (main fuel w argv)) = true.
Proof.
  intros fuel w argv c Hc Hne.
  pose proof (main_trace fuel w argv) as H. rewrite Hc in H. rewrite H.
  split; [reflexivity|]. cbn [fst]. unfold fatal_trace. cbv zeta.
  destruct c; try congruence.
  - reflexivity.
  - apply parse_diag_quiet.
  - reflexivity.
  - destruct (mode_of_token _) as [m|]; [destruct m|]; reflexivity.
  - destruct (mode_of_token _) as [m|]; [|reflexivity].
    rewrite !forallb_app, thp_warnings_quiet. destruct m; reflexivity.
Qed.

Lemma fatal_before_mmap_is_quiet_witness :
  snd (main 0 sample_world ["prog"; "3M"; "2m"]) = Return 1
  /\ forallb is_quiet (fst (main 0 sample_world ["prog"; "3M"; "2m"])) = true.
Proof.
  apply (fatal_before_mmap_is_quiet 0%nat sample_world ["prog"; "3M"; "2m"]
           MisalignedSize).
  - reflexivity.
  - discriminate.
Defined.

Lemma classify_mmap_failure (w : world) (argv : list string) :
  classify w argv = Some MmapFailure ->
  exists size m err,
    parse_size errno_at_startup (nth 1 argv "") = ([], size)
    /\ mode_of_token (nth 2 argv "") = Some m
    /\ w_mmap w size (PROT_READ + PROT_WRITE) (flags_of_mode m)
       = MapFailed err.
Proof.
  unfold classify.
  destruct (negb _); [discriminate|].
  destruct (parse_size_cases errno_at_startup (nth 1 argv ""))
    as [(d & Hp & _)|(n & Hn & Hp)]; rewrite Hp; cbn [snd];
    [discriminate|].
  destruct (n =? 0); [discriminate|].
  destruct (mode_of_token (nth 2 argv "")) as [m|]; [|discriminate].
  destruct (match alignment_of_mode m with Some _ => _ | None => _ end);
    [discriminate|].
  destruct (_ <? 0); [discriminate|].
  destruct (w_mmap w n (PROT_READ + PROT_WRITE) (flags_of_mode m)) as [a|err] eqn:E;
    [discriminate|].
  intros _. exists n, m, err. auto.
Qed.

(** X14.  When [mmap] fails the run ends with the failed call, the
    error line on standard error and the hint of the mode: none in the
    modes 4k and thp, the pool-size hint for [ENOMEM] and the
    size-multiple hint for [EINVAL] in the modes 2m and 1g; it returns 1
    without touching or unmapping anything. *)
Theorem mmap_failure_report :
  forall fuel w argv,
    classify w argv = Some MmapFailure ->
    exists size m err pre,
      parse_size errno_at_startup (nth 1 argv "") = ([], size)
      /\ mode_of_token (nth 2 argv "") = Some m
      /\ w_mmap w size (PROT_READ + PROT_WRITE) (flags_of_mode m)
         = MapFailed err
      /\ forallb is_quiet pre = true
      /\ main fuel w argv
         = ((pre ++ Mmap size (PROT_READ + PROT_WRITE) (flags_of_mode m)
                         (MapFailed err)
                 :: Print Stderr (MsgMmapFailed err)
                 :: mmap_hint m size err)%list,
            Return 1).
Proof.
  intros fuel w argv Hc.
  destruct (classify_mmap_failure w argv Hc) as (size & m & err & Hp & Hm & Hw).
  pose proof (main_trace fuel w argv) as H. rewrite Hc in H.
  exists size, m, err,
    (prologue m (check_thp_status (w_thp_enabled w))
              (get_vmpte_kb (w_status_before w)) size).
  repeat split; try assumption; [apply prologue_quiet|].
  rewrite H. unfold fatal_trace. cbv zeta. rewrite Hp, Hm. cbn [snd].
  rewrite Hw. reflexivity.
Qed.

Lemma mmap_failure_report_witness :
  exists size m err pre,
    parse_size errno_at_startup (nth 1 ["prog"; "2048G"; "1g"] "") = ([], size)
    /\ mode_of_token (nth 2 ["prog"; "2048G"; "1g"] "") = Some m
    /\ w_mmap sample_world size (PROT_READ + PROT_WRITE) (flags_of_mode m)
       = MapFailed err
    /\ forallb is_quiet pre = true
    /\ main 0 sample_world ["prog"; "2048G"; "1g"]
       = ((pre ++ Mmap size (PROT_READ + PROT_WRITE) (flags_of_mode m)
                       (MapFailed err)
               :: Print Stderr (MsgMmapFailed err)
               :: mmap_hint m size err)%list,
          Return 1).
Proof.
  apply (mmap_failure_report 0%nat sample_world ["prog"; "2048G"; "1g"]).
  reflexivity.
Defined.

(** X15.  With a size that parses and a mode token other than "4k",
    "thp", "2m", "1g", [main] writes the mode error to standard error
    and returns 1 at once: no probe is read and nothing is mapped. *)
Theorem invalid_mode_stops_first :
  forall fuel w argv0 s arg n,
    parse_size errno_at_startup s = ([], n) ->
    mode_of_token arg = None ->
    main fuel w [argv0; s; arg]
    = ([Print Stderr (MsgInvalidMode arg)], Return 1).
Proof.
  intros fuel w argv0 s arg n Hp Hm.
  pose proof (main_trace fuel w [argv0; s; arg]) as H.
  assert (Hc : classify w [argv0; s; arg] = Some InvalidMode).
  { unfold classify. cbn [List.length Nat.eqb negb nth]. rewrite Hp, Hm.
    cbn [snd].
    destruct (parse_size_cases errno_at_startup s)
      as [(d & E & _)|(n' & Hn & E)]; rewrite Hp in E; inversion E; subst.
    replace (n' =? 0) with false by (symmetry; apply Z.eqb_neq; lia).
    reflexivity. }
  rewrite Hc in H. rewrite H. reflexivity.
Qed.

Lemma invalid_mode_stops_first_witness :
  main 0 sample_world ["prog"; "8K"; "64k"]
  = ([Print Stderr (MsgInvalidMode "64k")], Return 1).
Proof.
  apply (invalid_mode_stops_first 0%nat sample_world "prog" "8K" "64k" 8192);
    reflexivity.
Defined.

Lemma fatal_trace_events (w : world) (argv : list string) (c : fatal_class)
  (e : event) :
  In e (fatal_trace w argv c) ->
  (exists fd d, e = Print fd d /\ is_thp_advisory d = false)
  \/ e = ReadThpEnabled \/ e = ReadProcStatus
  \/ (exists len p f err, e = Mmap len p f (MapFailed err))
  \/ (exists m, mode_of_token (nth 2 argv "") = Some m
                /\ In e (thp_warnings m (check_thp_status (w_thp_enabled w)))).
Proof.
  unfold fatal_trace. cbv zeta. intros H.
  destruct c.
  - cbn in H. in_cases H; subst e. left. eauto.
  - destruct (parse_size_cases errno_at_startup (nth 1 argv ""))
      as [(d & E & Hd)|(n & _ & E)]; rewrite E in H; cbn in H;
      in_cases H; subst e.
    left. exists Stderr, d. split; [reflexivity|].
    destruct d; try discriminate Hd; reflexivity.
  - cbn in H. in_cases H; subst e. left. eauto.
  - destruct (mode_of_token (nth 2 argv "")) as [m|]; [|destruct H].
    cbn in H. in_cases H; subst e; left; destruct m; eauto.
  - destruct (mode_of_token (nth 2 argv "")) as [m|]; [|destruct H].
    rewrite !in_app_iff in H. cbn [In] in H.
    destruct H as [H|[H|H]]; in_cases H; try subst e.
    + left. destruct m; eauto.
    + auto.
    + right; right; right; right. eauto.
    + auto.
    + left. eauto.
  - destruct (mode_of_token (nth 2 argv "")) as [m|]; [|destruct H].
    unfold prologue in H. rewrite !in_app_iff in H. cbn [In] in H.
    destruct H as [[H|[H|H]]|H]; in_cases H; try subst e.
    + left. destruct m; eauto.
    + auto.
    + right; right; right; right. eauto.
    + auto.
    + left. eauto.
    + left. eauto.
    + left. eauto.
    + destruct (w_mmap w _ _ _) as [a|err]; [destruct H|].
      cbn [In] in H. destruct H as [H|[H|H]]; try subst e.
      * right; right; right; left. eauto 6.
      * left. eauto.
      * unfold mmap_hint in H. destruct (alignment_of_mode m); [|destruct H].
        destruct (err =? ENOMEM); [cbn in H; in_cases H; subst e; left; eauto|].
        destruct (err =? EINVAL); cbn in H; in_cases H; subst e; left; eauto.
Qed.

Lemma prologue_events (m : PageSizeMode) (thp : ThpStatus) (vb size : Z)
  (e : event) :
  In e (prologue m thp vb size) ->
  (exists fd d, e = Print fd d /\ is_thp_advisory d = false)
  \/ e = ReadThpEnabled \/ e = ReadProcStatus
  \/ In e (thp_warnings m thp).
Proof.
  unfold prologue. rewrite !in_app_iff. cbn [In].
  intros [H|[H|H]]; in_cases H; try subst e; auto.
  - left. destruct m; eauto.
  - left. eauto.
  - left. eauto.
  - left. eauto.
Qed.

(** X16.  An advisory THP warning appears in a trace only as the
    table says: "never" in the modes 4k and thp, "unknown" in the mode
    thp, none in the modes 2m and 1g; and every run that gets past the
    validation of its arguments, so every run that reaches [mmap],
    whether [mmap] then succeeds or fails, and every run the baseline
    probe stops, has printed the warning of its mode and policy. *)
Theorem thp_advisory_table :
  (forall fuel w argv fd d,
      In (Print fd d) (fst (main fuel w argv)) ->
      is_thp_advisory d = true ->
      exists m,
        mode_of_token (nth 2 argv "") = Some m
        /\ In (Print fd d)
              (thp_warnings m (check_thp_status (w_thp_enabled w))))
  /\ (forall fuel w argv m e,
         classify w argv = None
         \/ classify w argv = Some MmapFailure
         \/ classify w argv = Some BaselineProbeFailure ->
         mode_of_token (nth 2 argv "") = Some m ->
         In e (thp_warnings m (check_thp_status (w_thp_enabled w))) ->
         In e (fst (main fuel w argv))).
Proof.
  split.
  - intros fuel w argv fd d Hin Hadv.
    pose proof (main_trace fuel w argv) as H.
    destruct (classify w argv) as [c|].
    + rewrite H in Hin. cbn [fst] in Hin.
      destruct (fatal_trace_events w argv c _ Hin)
        as [(fd' & d' & E & Hd)|[E|[E|[(? & ? & ? & ? & E)|Hw]]]];
        try discriminate E; [|exact Hw].
      inversion E; subst. congruence.
    + destruct H as (size & m & addr & _ & _ & Hm & _ & _ & E).
      rewrite E in Hin. cbn [fst] in Hin. apply in_app_or in Hin.
      destruct Hin as [Hin|[Hin|Hin]]; [|discriminate|].
      * destruct (prologue_events _ _ _ _ _ Hin)
          as [(fd' & d' & E' & Hd)|[E'|[E'|Hw]]]; try discriminate E'.
        -- inversion E'; subst. congruence.
        -- eauto.
      * destruct (after_mmap_In _ _ _ _ _ _ _ _ Hin)
          as [[E' _]|[[E' _]|[(? & E' & _)|[E'|[E'|[E'|(fd' & d' & E' & Hd)]]]]]];
          try discriminate E'.
        inversion E'; subst. congruence.
  - intros fuel w argv m e Hc Hm Hin.
    pose proof (main_trace fuel w argv) as H.
    destruct Hc as [Hc|[Hc|Hc]]; rewrite Hc in H.
    + destruct H as (size & m' & addr & _ & _ & Hm' & _ & _ & E).
      rewrite Hm in Hm'. inversion Hm'; subst m'.
      rewrite E. cbn [fst]. apply in_or_app. left.
      unfold prologue. rewrite !in_app_iff. auto.
    + rewrite H. cbn [fst]. unfold fatal_trace. cbv zeta. rewrite Hm.
      apply in_or_app. left. unfold prologue. rewrite !in_app_iff. auto.
    + rewrite H. cbn [fst]. unfold fatal_trace. cbv zeta. rewrite Hm.
      rewrite !in_app_iff. auto.
Qed.

Lemma thp_advisory_table_witness :
  classify sample_world ["prog"; "2048G"; "thp"] = Some MmapFailure
  /\ In (Print Stdout MsgWarnThpNever)
        (fst (main 4 sample_world ["prog"; "2048G"; "thp"])).
Proof.
  split; [reflexivity|].
  apply (proj2 thp_advisory_table 4%nat sample_world
           ["prog"; "2048G"; "thp"] MODE_THP).
  - right. left. reflexivity.
  - reflexivity.
  - vm_compute. tauto.
Defined.

(** X17.  [madvise] is called only on the region [mmap] returned, and
    only with [MADV_NOHUGEPAGE] in the mode 4k or with [MADV_HUGEPAGE]
    in the mode thp under the THP policy "madvise"; never in the modes
    2m and 1g. *)
Theorem madvise_policy :
  forall fuel w argv addr len advice,
    In (Madvise addr len advice) (fst (main fuel w argv)) ->
    exists m,
      mode_of_token (nth 2 argv "") = Some m
      /\ w_mmap w len (PROT_READ + PROT_WRITE) (flags_of_mode m) = MapOk addr
      /\ ((m = MODE_4K /\ advice = MADV_NOHUGEPAGE)
          \/ (m = MODE_THP /\ advice = MADV_HUGEPAGE
              /\ check_thp_status (w_thp_enabled w) = THP_MADVISE)).
Proof.
  intros fuel w argv addr len advice Hin.
  pose proof (main_trace fuel w argv) as H.
  destruct (classify w argv) as [c|].
  - rewrite H in Hin. cbn [fst] in Hin.
    destruct (fatal_trace_events w argv c _ Hin)
      as [(? & ? & E & _)|[E|[E|[(? & ? & ? & ? & E)|(m & _ & Hw)]]]];
      try discriminate E.
    destruct m, (check_thp_status (w_thp_enabled w)); cbn in Hw;
      in_cases Hw; discriminate.
  - destruct H as (size & m & a & _ & _ & Hm & _ & Hw & E).
    rewrite E in Hin. cbn [fst] in Hin. apply in_app_or in Hin.
    destruct Hin as [Hin|[Hin|Hin]]; [|discriminate|].
    + pose proof (prologue_quiet m (check_thp_status (w_thp_enabled w))
                    (get_vmpte_kb (w_status_before w)) size) as Hq.
      rewrite forallb_forall in Hq. specialize (Hq _ Hin). discriminate.
    + destruct (after_mmap_In _ _ _ _ _ _ _ _ Hin)
        as [[E' Hmode]|[[E' [Hmode Hthp]]|[(? & E' & _)|[E'|[E'|[E'|(? & ? & E' & _)]]]]]];
        try discriminate E'; inversion E'; subst; cbn [mode policy_of_mode] in Hmode;
        exists m; repeat split; auto.
Qed.

Lemma madvise_policy_witness :
  exists m,
    mode_of_token (nth 2 ["prog"; "8K"; "4k"] "") = Some m
    /\ w_mmap sample_world 8192 (PROT_READ + PROT_WRITE) (flags_of_mode m)
       = MapOk (2 ^ 30)
    /\ ((m = MODE_4K /\ MADV_NOHUGEPAGE = MADV_NOHUGEPAGE)
        \/ (m = MODE_THP /\ MADV_NOHUGEPAGE = MADV_HUGEPAGE
            /\ check_thp_status (w_thp_enabled sample_world) = THP_MADVISE)).
Proof.
  apply (madvise_policy 4%nat sample_world ["prog"; "8K"; "4k"]).
  vm_compute. tauto.
Defined.

Lemma filter_touches (tl : list event) :
  forallb is_touch tl = true ->
  filter is_touch tl = tl /\ filter is_touched_summary tl = [].
Proof.
  induction tl as [|e tl IH]; [split; reflexivity|]. cbn [forallb].
  intros H. apply andb_prop in H. destruct H as [He Ht].
  destruct (IH Ht) as [I1 I2].
  destruct e; try discriminate He. cbn. now rewrite I1, I2.
Qed.

Ltac split_after_mmap w pol thp size :=
  destruct (mode_eqb (mode pol) MODE_4K);
  destruct (mode_eqb (mode pol) MODE_THP && thp_eqb thp THP_MADVISE);
  destruct (w_madvise w);
  destruct (get_vmpte_kb (w_status_after w) <? 0);
  destruct (PAGE_SIZE_2M <=? size);
  destruct (PAGE_SIZE_1G <=? size);
  destruct (w_munmap w).

(** Once the loop has ended, the trace after [mmap] holds the loop's
    touches and one summary line with its count. *)
Lemma after_mmap_touches fuel w pol thp vb size addr tl c :
  touch_loop fuel addr size (touch_step_size pol) 0 0 = (tl, Continue c) ->
  forallb is_touch tl = true ->
  filter is_touch (fst (after_mmap fuel w pol thp vb size addr)) = tl
  /\ filter is_touched_summary (fst (after_mmap fuel w pol thp vb size addr))
     = [Print Stdout (MsgTouched c)].
Proof.
  intros Htl Hall. destruct (filter_touches tl Hall) as [F1 F2].
  unfold after_mmap. rewrite Htl.
  split_after_mmap w pol thp size; cbn;
    rewrite !filter_app, ?F1, ?F2; cbn; rewrite ?app_nil_r; split; reflexivity.
Qed.

Lemma touches_are_touches (addr : Z) (offs : list Z) :
  forallb is_touch (map (fun off => Touch addr off (off mod 256)) offs) = true.
Proof. induction offs as [|o offs IH]; [reflexivity|exact IH]. Qed.

Lemma touch_offsets_length (n : nat) (start step : Z) :
  List.length (touch_offsets n start step) = n.
Proof.
  revert start. induction n as [|n IH]; intros start; [reflexivity|].
  cbn. now rewrite IH.
Qed.

Lemma prologue_no_touch (m : PageSizeMode) (thp : ThpStatus) (vb size : Z) :
  filter is_touch (prologue m thp vb size) = []
  /\ filter is_touched_summary (prologue m thp vb size) = [].
Proof. destruct m, thp; split; reflexivity. Qed.

(** X18.  A full run prints one "Touched" line, its count is
    [ceil (size / stride)], and the trace holds exactly that many
    touches; in the modes 2m and 1g the count is [size / page size]. *)
Theorem touched_summary_matches :
  forall w argv size m fuel,
    classify w argv = None -> mmap_contract w ->
    parse_size errno_at_startup (nth 1 argv "") = ([], size) ->
    mode_of_token (nth 2 argv "") = Some m ->
    (Z.to_nat (ceil_div size (stride_of_mode m)) < fuel)%nat ->
    filter is_touched_summary (fst (main fuel w argv))
    = [Print Stdout (MsgTouched (ceil_div size (stride_of_mode m)))]
    /\ List.length (filter is_touch (fst (main fuel w argv)))
       = Z.to_nat (ceil_div size (stride_of_mode m))
    /\ (forall al, alignment_of_mode m = Some al ->
                   ceil_div size (stride_of_mode m) = size / al).
Proof.
  intros w argv size m fuel Hc Hw Hp Hm Hf.
  pose proof (main_trace fuel w argv) as H. rewrite Hc in H.
  destruct H as (size' & m' & addr & Hp' & Hn & Hm' & Hal & Hmap & E).
  rewrite Hp in Hp'. rewrite Hm in Hm'.
  inversion Hp'; inversion Hm'; subst size' m'. clear Hp' Hm'.
  pose proof (Hw _ _ _ _ Hmap) as Hsp. rewrite mode_page_size in Hsp.
  pose proof (in_address_space_room _ _ _ (stride_pos m) Hsp) as Hroom.
  pose proof (touch_loop_total fuel addr size (stride_of_mode m)
                (stride_pos m) (proj1 Hn) Hroom Hf) as Htl.
  destruct (after_mmap_touches fuel w (policy_of_mode m)
              (check_thp_status (w_thp_enabled w))
              (get_vmpte_kb (w_status_before w)) size addr _ _ Htl
              (touches_are_touches _ _)) as [A1 A2].
  destruct (prologue_no_touch m (check_thp_status (w_thp_enabled w))
              (get_vmpte_kb (w_status_before w)) size) as [P1 P2].
  rewrite E. cbn [fst]. rewrite !filter_app. cbn [filter is_touch is_touched_summary].
  rewrite A1, A2, P1, P2. cbn [app].
  split; [reflexivity|]. split.
  - now rewrite length_map, touch_offsets_length.
  - intros al Ha. rewrite Ha in Hal.
    destruct m; try discriminate Ha; inversion Ha; subst al;
      apply ceil_div_exact; try assumption; reflexivity.
Qed.

Lemma touched_summary_matches_witness :
  filter is_touched_summary (fst (main 4 sample_world ["prog"; "8K"; "4k"]))
  = [Print Stdout (MsgTouched (ceil_div 8192 (stride_of_mode MODE_4K)))].
Proof.
  apply (touched_summary_matches sample_world ["prog"; "8K"; "4k"] 8192
           MODE_4K 4%nat); try reflexivity.
  - exact sample_world_contract.
  - vm_compute. lia.
Defined.

(** C5.  For every mapped size and its mode-determined stride (4096
    bytes for 4k and thp, 2 MiB for 2m, 1 GiB for 1g) the touch loop of
    the run writes one byte at the start of each stride-sized interval
    of the mapped region, at the offsets 0, stride, 2 stride, ..., and
    ends with [touched_count = ceil (size / stride)], the count the run
    prints; 5 MiB at a stride of 2 MiB gives 3 touches, at offsets 0,
    2 MiB and 4 MiB.  A mapped region is one inside the address space,
    as [mmap] returns it. *)
Theorem touch_count_ceil :
  (forall w argv size m fuel,
      classify w argv = None -> mmap_contract w ->
      parse_size errno_at_startup (nth 1 argv "") = ([], size) ->
      mode_of_token (nth 2 argv "") = Some m ->
      (Z.to_nat (ceil_div size (stride_of_mode m)) < fuel)%nat ->
      exists addr,
        w_mmap w size (PROT_READ + PROT_WRITE) (flags_of_mode m) = MapOk addr
        /\ filter is_touch (fst (main fuel w argv))
           = map (fun off => Touch addr off (off mod 256))
                 (touch_offsets (Z.to_nat (ceil_div size (stride_of_mode m)))
                                0 (stride_of_mode m))
        /\ filter is_touched_summary (fst (main fuel w argv))
           = [Print Stdout (MsgTouched (ceil_div size (stride_of_mode m)))])
  /\ stride_of_mode MODE_4K = 4096
  /\ stride_of_mode MODE_THP = 4096
  /\ stride_of_mode MODE_2M = 2 * 2 ^ 20
  /\ stride_of_mode MODE_1G = 2 ^ 30
  /\ (forall addr,
         touch_loop 4 addr (5 * 2 ^ 20) (stride_of_mode MODE_2M) 0 0
         = ([Touch addr 0 0; Touch addr (2 * 2 ^ 20) 0;
             Touch addr (4 * 2 ^ 20) 0],
            Continue 3)).
Proof.
  split; [|repeat split; reflexivity].
  intros w argv size m fuel Hc Hw Hp Hm Hf.
  pose proof (main_trace fuel w argv) as H. rewrite Hc in H.
  destruct H as (size' & m' & addr & Hp' & Hn & Hm' & Hal & Hmap & E).
  rewrite Hp in Hp'. rewrite Hm in Hm'.
  inversion Hp'; inversion Hm'; subst size' m'. clear Hp' Hm'.
  pose proof (Hw _ _ _ _ Hmap) as Hsp. rewrite mode_page_size in Hsp.
  pose proof (in_address_space_room _ _ _ (stride_pos m) Hsp) as Hroom.
  pose proof (touch_loop_total fuel addr size (stride_of_mode m)
                (stride_pos m) (proj1 Hn) Hroom Hf) as Htl.
  destruct (after_mmap_touches fuel w (policy_of_mode m)
              (check_thp_status (w_thp_enabled w))
              (get_vmpte_kb (w_status_before w)) size addr _ _ Htl
              (touches_are_touches _ _)) as [A1 A2].
  destruct (prologue_no_touch m (check_thp_status (w_thp_enabled w))
              (get_vmpte_kb (w_status_before w)) size) as [P1 P2].
  exists addr. split; [exact Hmap|].
  rewrite E. cbn [fst]. rewrite !filter_app.
  cbn [filter is_touch is_touched_summary].
  rewrite A1, A2, P1, P2. split; reflexivity.
Qed.

Lemma touch_count_ceil_witness :
  exists addr,
    w_mmap sample_world 8192 (PROT_READ + PROT_WRITE) (flags_of_mode MODE_4K)
    = MapOk addr
    /\ filter is_touch (fst (main 4 sample_world ["prog"; "8K"; "4k"]))
       = map (fun off => Touch addr off (off mod 256))
             (touch_offsets (Z.to_nat (ceil_div 8192 (stride_of_mode MODE_4K)))
                            0 (stride_of_mode MODE_4K))
    /\ filter is_touched_summary
         (fst (main 4 sample_world ["prog"; "8K"; "4k"]))
       = [Print Stdout (MsgTouched (ceil_div 8192 (stride_of_mode MODE_4K)))].
Proof.
  apply (proj1 touch_count_ceil sample_world ["prog"; "8K"; "4k"] 8192
           MODE_4K 4%nat); try reflexivity.
  - exact sample_world_contract.
  - vm_compute. lia.
Defined.

Lemma fatal_trace_quiet (w : world) (argv : list string) (c : fatal_class) :
  c <> MmapFailure -> forallb is_quiet (fatal_trace w argv c) = true.
Proof.
  intros Hne. unfold fatal_trace. cbv zeta.
  destruct c; try congruence.
  - reflexivity.
  - apply parse_diag_quiet.
  - reflexivity.
  - destruct (mode_of_token _) as [m|]; [destruct m|]; reflexivity.
  - destruct (mode_of_token _) as [m|]; [|reflexivity].
    rewrite !forallb_app, thp_warnings_quiet. destruct m; reflexivity.
Qed.

Lemma mmap_failure_aligned (w : world) (argv : list string) (size : Z)
  (m : PageSizeMode) :
  classify w argv = Some MmapFailure ->
  parse_size errno_at_startup (nth 1 argv "") = ([], size) ->
  mode_of_token (nth 2 argv "") = Some m ->
  match alignment_of_mode m with
  | Some al => size mod al = 0
  | None => True
  end.
Proof.
  unfold classify. intros H Hp Hm. rewrite Hp, Hm in H. cbn [snd] in H.
  destruct (negb _); [discriminate|].
  destruct (size =? 0); [discriminate|].
  destruct (alignment_of_mode m) as [al|]; [|exact I].
  destruct (size mod al =? 0) eqn:E; [now apply Z.eqb_eq|discriminate].
Qed.

Lemma flags_of_mode_facts (m : PageSizeMode) :
  Z.land (flags_of_mode m) (Z.lor MAP_PRIVATE MAP_ANONYMOUS)
  = Z.lor MAP_PRIVATE MAP_ANONYMOUS
  /\ match alignment_of_mode m with
     | Some al => Z.land (flags_of_mode m) MAP_HUGETLB = MAP_HUGETLB
                  /\ mmap_page_size (flags_of_mode m) = al
     | None => Z.land (flags_of_mode m) MAP_HUGETLB = 0
     end.
Proof. destruct m; repeat split; reflexivity. Qed.

(** X19.  Every [mmap] call of every run asks for the parsed size,
    readable and writable, private and anonymous.  [MAP_HUGETLB] is set
    exactly in the modes 2m and 1g, where the huge page size the flags
    encode is the alignment the size was checked against and divides
    it; in every mode the page size of the flags is the stride of the
    touch loop. *)
Theorem mmap_request_consistent :
  forall fuel w argv len prot flags res,
    In (Mmap len prot flags res) (fst (main fuel w argv)) ->
    exists m,
      mode_of_token (nth 2 argv "") = Some m
      /\ parse_size errno_at_startup (nth 1 argv "") = ([], len)
      /\ res = w_mmap w len prot flags
      /\ prot = Z.lor PROT_READ PROT_WRITE
      /\ Z.land flags (Z.lor MAP_PRIVATE MAP_ANONYMOUS)
         = Z.lor MAP_PRIVATE MAP_ANONYMOUS
      /\ mmap_page_size flags = stride_of_mode m
      /\ match alignment_of_mode m with
         | Some al => Z.land flags MAP_HUGETLB = MAP_HUGETLB
                      /\ mmap_page_size flags = al
                      /\ len mod al = 0
         | None => Z.land flags MAP_HUGETLB = 0
         end.
Proof.
  intros fuel w argv len prot flags res Hin.
  assert (K : forall size m,
             mode_of_token (nth 2 argv "") = Some m ->
             parse_size errno_at_startup (nth 1 argv "") = ([], size) ->
             match alignment_of_mode m with
             | Some al => size mod al = 0
             | None => True
             end ->
             Mmap size (PROT_READ + PROT_WRITE) (flags_of_mode m)
                  (w_mmap w size (PROT_READ + PROT_WRITE) (flags_of_mode m))
             = Mmap len prot flags res ->
             exists m0,
               mode_of_token (nth 2 argv "") = Some m0
               /\ parse_size errno_at_startup (nth 1 argv "") = ([], len)
               /\ res = w_mmap w len prot flags
               /\ prot = Z.lor PROT_READ PROT_WRITE
               /\ Z.land flags (Z.lor MAP_PRIVATE MAP_ANONYMOUS)
                  = Z.lor MAP_PRIVATE MAP_ANONYMOUS
               /\ mmap_page_size flags = stride_of_mode m0
               /\ match alignment_of_mode m0 with
                  | Some al => Z.land flags MAP_HUGETLB = MAP_HUGETLB
                               /\ mmap_page_size flags = al
                               /\ len mod al = 0
                  | None => Z.land flags MAP_HUGETLB = 0
                  end).
  { intros size m Hm Hp Hal E. injection E as <- <- <- <-.
    exists m. destruct (flags_of_mode_facts m) as [F1 F2].
    repeat split; try assumption; try reflexivity.
    - apply mode_page_size.
    - destruct (alignment_of_mode m) as [al|]; [|exact F2].
      destruct F2 as [F2 F3]. auto. }
  pose proof (main_trace fuel w argv) as H.
  destruct (classify w argv) as [c|] eqn:Hc.
  - rewrite H in Hin. cbn [fst] in Hin.
    assert (D : c = MmapFailure \/ c <> MmapFailure)
      by (destruct c; first [left; reflexivity | right; discriminate]).
    destruct D as [->|Hne].
    + destruct (classify_mmap_failure w argv Hc) as (size & m & err & Hp & Hm & Hw).
      pose proof (mmap_failure_aligned w argv size m Hc Hp Hm) as Hal.
      unfold fatal_trace in Hin. cbv zeta in Hin.
      rewrite Hp, Hm in Hin. cbn [snd] in Hin. rewrite Hw in Hin.
      apply in_app_or in Hin. destruct Hin as [Hin|Hin].
      * pose proof (prologue_quiet m (check_thp_status (w_thp_enabled w))
                      (get_vmpte_kb (w_status_before w)) size) as Hq.
        rewrite forallb_forall in Hq. specialize (Hq _ Hin). discriminate.
      * destruct Hin as [E|[E|Hin]]; [|discriminate|].
        -- apply (K size m Hm Hp Hal). now rewrite Hw.
        -- unfold mmap_hint in Hin.
           destruct (alignment_of_mode m); [|destruct Hin].
           destruct (err =? ENOMEM); [cbn in Hin; in_cases Hin; discriminate|].
           destruct (err =? EINVAL); cbn in Hin; in_cases Hin; discriminate.
    + pose proof (fatal_trace_quiet w argv c Hne) as Hq.
      rewrite forallb_forall in Hq. specialize (Hq _ Hin). discriminate.
  - destruct H as (size & m & addr & Hp & _ & Hm & Hal & Hw & E).
    rewrite E in Hin. cbn [fst] in Hin. apply in_app_or in Hin.
    destruct Hin as [Hin|[Hin|Hin]].
    + pose proof (prologue_quiet m (check_thp_status (w_thp_enabled w))
                    (get_vmpte_kb (w_status_before w)) size) as Hq.
      rewrite forallb_forall in Hq. specialize (Hq _ Hin). discriminate.
    + apply (K size m Hm Hp Hal). now rewrite Hw.
    + destruct (after_mmap_In _ _ _ _ _ _ _ _ Hin)
        as [[E' _]|[[E' _]|[(? & E' & _)|[E'|[E'|[E'|(? & ? & E' & _)]]]]]];
        discriminate E'.
Qed.

Lemma mmap_request_consistent_witness :
  exists m,
    mode_of_token (nth 2 ["prog"; "2M"; "2m"] "") = Some m
    /\ parse_size errno_at_startup (nth 1 ["prog"; "2M"; "2m"] "")
       = ([], 2097152)
    /\ MapOk (2 ^ 30) = w_mmap sample_world 2097152 3 1409548322
    /\ 3 = Z.lor PROT_READ PROT_WRITE
    /\ Z.land 1409548322 (Z.lor MAP_PRIVATE MAP_ANONYMOUS)
       = Z.lor MAP_PRIVATE MAP_ANONYMOUS
    /\ mmap_page_size 1409548322 = stride_of_mode m
    /\ match alignment_of_mode m with
       | Some al => Z.land 1409548322 MAP_HUGETLB = MAP_HUGETLB
                    /\ mmap_page_size 1409548322 = al
                    /\ 2097152 mod al = 0
       | None => Z.land 1409548322 MAP_HUGETLB = 0
       end.
Proof.
  apply (mmap_request_consistent 4%nat sample_world ["prog"; "2M"; "2m"]
           2097152 3 1409548322 (MapOk (2 ^ 30))).
  vm_compute. tauto.
Defined.

End FullRuns.

Section Pipeline.




End Pipeline.
